(** * Padlock: records, collections and the data store

    A shallow embedding of the model module (Store and Collection) and of
    the properties its specification states.

    JavaScript objects are shared and mutated in place, so records live in a
    heap and the collection holds references to them; [uuidMap] is a JS
    object used as a dictionary and is a [gmap]; [records] is an array of
    references.

    A record has a uuid that is absent or a string, an [updated] that is
    absent, a [Date] or an ISO-8601 string, and JSON data otherwise. Two
    things the model does not follow the code in are named by predicates,
    and the statements that depend on them carry these as hypotheses: a
    uuid that is one of the property names every object inherits
    ([inherited]), and an ISO-8601 string of a year outside 0000 to 9999
    ([legible]). *)

From stdpp Require Import base option list gmap strings.
From Stdlib Require Import ZArith Lia.

Local Open Scope Z_scope.

(** ** Values *)

(** The [updated] property. The program puts a [Date] object there
    ([rec.updated = new Date()] in [remove] and in [save]); a record that
    went through [JSON.stringify] and [JSON.parse] carries the ISO-8601
    string of that instant instead, because [JSON.parse] never builds a
    [Date]. [IsoString t] stands for the text [new Date(t).toISOString()].
    For the instants of the years 0000 to 9999 ([legible] below) that text
    has one width and orders as the instants do; outside them it starts
    with a sign and orders otherwise. *)
Inductive stamp :=
| Absent
| DateObj (t : Z)
| IsoString (t : Z).

(** [r.updated && ...]: objects and non-empty strings are truthy,
    [undefined] is not. *)
Definition truthy (s : stamp) : bool :=
  match s with
  | Absent => false
  | DateObj _ | IsoString _ => true
  end.

(** [a > b] as JavaScript evaluates it. Both operands go through
    ToPrimitive with hint Number: a [Date] becomes its time value, a string
    stays a string. Two strings are compared as text; for two [legible]
    ISO-8601 strings that is the order of their instants, and only for
    them is the third line below the comparison the code makes. Otherwise
    both sides go through ToNumber: an ISO-8601 string and [undefined]
    become [NaN], and every comparison with [NaN] is false. *)
Definition js_gt (a b : stamp) : bool :=
  match a, b with
  | DateObj x, DateObj y => Z.ltb y x
  | IsoString x, IsoString y => Z.ltb y x
  | _, _ => false
  end.

(** 0000-01-01T00:00:00.000Z and +010000-01-01T00:00:00.000Z in
    milliseconds since 1970. *)
Definition year_0000 : Z := -62167219200000.
Definition year_10000 : Z := 253402300800000.

(** An ISO-8601 string is legible when its year has four digits. *)
Definition legible (s : stamp) : Prop :=
  match s with
  | IsoString t => year_0000 ≤ t < year_10000
  | Absent | DateObj _ => True
  end.

(** The instant a stamp denotes. *)
Definition instant (s : stamp) : option Z :=
  match s with
  | Absent => None
  | DateObj t | IsoString t => Some t
  end.

(** JSON data carried by a record besides the properties the model module
    itself reads ([name], [fields], [tags], ...). *)
#[local] Unset Elimination Schemes.
Inductive json :=
| JNull
| JBool (b : bool)
| JNum (n : Z)
| JStr (s : string)
| JArr (items : list json)
| JObj (members : list (string * json)).
#[local] Set Elimination Schemes.

(** A record object: the three properties the module reads and writes, and
    every other own property in [attrs]. *)
Record record := Rec {
  uuid : option string;
  updated : stamp;
  removed : option bool;
  attrs : gmap string json
}.

Definition empty_record : record := Rec None Absent None ∅.

Definition set_uuid (u : string) (o : record) : record :=
  Rec (Some u) (updated o) (removed o) (attrs o).

Definition set_updated (s : stamp) (o : record) : record :=
  Rec (uuid o) s (removed o) (attrs o).

Definition set_removed (b : bool) (o : record) : record :=
  Rec (uuid o) (updated o) (Some b) (attrs o).

(** [Date.prototype.toJSON]: what [JSON.stringify] writes for a record. A
    [Date] is written as its ISO-8601 string; an absent property is left
    out. *)
Definition toJSON (o : record) : record :=
  match updated o with
  | DateObj t => set_updated (IsoString t) o
  | _ => o
  end.

(** ** Heap *)

Abbreviation loc := nat.

(** A reference held by an array or passed as an argument: an object, or
    [null]/[undefined]. *)
Abbreviation ref := (option loc).

Definition deref (h : list record) (l : loc) : record :=
  default empty_record (h !! l).

(** ** What a failure callback is handed *)

Inductive error :=
| NotFound             (* a Source: nothing stored under the key *)
| Unavailable          (* a Source: the read or write failed *)
| AuthenticationFailed (* crypto.pwdDecrypt: the password is wrong *)
| CorruptData          (* crypto.pwdDecrypt: the blob is damaged *)
| SyntaxError          (* JSON.parse *)
| TypeError.           (* property access on null or undefined *)

Inductive completion :=
| Normal
| Throw (e : error).

Inductive outcome :=
| Succeeded
| Failed (e : error).

(** ** The modules the model module is given

    [padlock/crypto], [padlock/util] and the JSON built-in. The formats of
    the JSON text and of the encrypted blob are theirs. *)
Class Platform := {
  text : Type;
  blob : Type;
  util_uuid : nat → string;
  JSON_stringify : list record → text;
  JSON_parse : text → error + list (option record);
  pwdEncrypt : option string → text → blob;
  pwdDecrypt : option string → blob → error + text
}.

(** ** Store and Collection *)

(** [password] is [""] in a new store and [null] after [lock]. The default
    source is outside the store; see [sources] below. *)
Record Store := mkStore {
  password : option string
}.

(** The property names every object inherits from [Object.prototype].
    [uuidMap] starts as [{}], so reading one of them from it finds the
    inherited value even when no record was filed under that name; [!!] on
    the [gmap] is the lookup of the own properties only. *)
Definition inherited_names : list string :=
  ["constructor"; "toString"; "toLocaleString"; "valueOf"; "hasOwnProperty";
   "isPrototypeOf"; "propertyIsEnumerable"; "__proto__"; "__defineGetter__";
   "__defineSetter__"; "__lookupGetter__"; "__lookupSetter__"].

Definition inherited (u : string) : bool :=
  bool_decide (u ∈ inherited_names).

Record Collection := mkCollection {
  name : string;
  store : Store;
  records : list loc;
  uuidMap : gmap string loc
}.

(** The program state: the heap of record objects, how many uuids
    [util.uuid()] has handed out, and the collection. *)
Record world := mkWorld {
  heap : list record;
  drawn : nat;
  this : Collection
}.

(** [new Store()] and [new Collection(name, store)]. *)
Definition new_Store : Store := mkStore (Some "").

Definition new_Collection (n : string) (s : Store) : Collection :=
  mkCollection (if decide (n = "") then "default" else n) s [] ∅.

Definition with_records (rs : list loc) (c : Collection) : Collection :=
  mkCollection (name c) (store c) rs (uuidMap c).

Definition with_uuidMap (m : gmap string loc) (c : Collection) : Collection :=
  mkCollection (name c) (store c) (records c) m.

Definition with_password (p : option string) (c : Collection) : Collection :=
  mkCollection (name c) (mkStore p) (records c) (uuidMap c).

(** [records.indexOf(x)]: the first index holding the same object; [None]
    is the [-1] of JavaScript. *)
Fixpoint indexOf (x : loc) (l : list loc) : option nat :=
  match l with
  | [] => None
  | y :: rest => if decide (y = x) then Some 0%nat else S <$> indexOf x rest
  end.

(** [records[records.indexOf(existing)] = r]. With index [-1] the
    assignment creates a property named "-1" on the array: no element
    changes and the length stays. *)
Definition put_at (i : option nat) (r : loc) (l : list loc) : list loc :=
  match i with
  | Some k => <[k := r]> l
  | None => l
  end.

(** [util.isArray(rec) ? rec : [rec]] *)
Inductive add_arg :=
| One (r : ref)
| Many (rs : list ref).

Definition as_array (a : add_arg) : list ref :=
  match a with
  | One r => [r]
  | Many rs => rs
  end.

Section Model.
Context `{Platform}.

(** *** Collection.add *)

(** [r.uuid || util.uuid()]: the empty string is falsy. *)
Definition uuid_or_new (o : record) (n : nat) : string * nat :=
  match uuid o with
  | Some u => if decide (u = "") then (util_uuid n, S n) else (u, n)
  | None => (util_uuid n, S n)
  end.

(** The body of the [forEach] callback for an object [r]. [recs] is the
    local copy of the array; the heap and [uuidMap] are written in
    place. The lookup is that of the own properties of [uuidMap]: for a
    uuid that is [inherited] and not filed the code finds the inherited
    value and takes neither branch, so what is stated about the last branch
    is stated for uuids that are not [inherited]. *)
Definition add_one (r : loc) (w : world) (recs : list loc) : world * list loc :=
  let o := deref (heap w) r in
  let '(u, n) := uuid_or_new o (drawn w) in
  let h := <[r := set_uuid u o]> (heap w) in
  match uuidMap (this w) !! u with
  | Some existing =>
      if truthy (updated o) && js_gt (updated o) (updated (deref h existing))
      then (mkWorld h n (with_uuidMap (<[u := r]> (uuidMap (this w))) (this w)),
            put_at (indexOf existing recs) r recs)
      else (mkWorld h n (this w), recs)
  | None =>
      (mkWorld h n (with_uuidMap (<[u := r]> (uuidMap (this w))) (this w)),
       recs ++ [r])
  end.

(** [rec.forEach(...)]: reading [r.uuid] of [null] or [undefined] throws,
    and the exception leaves the loop. *)
Fixpoint forEach (rs : list ref) (w : world) (recs : list loc)
  : world * list loc * completion :=
  match rs with
  | [] => (w, recs, Normal)
  | None :: _ => (w, recs, Throw TypeError)
  | Some r :: rest =>
      let '(w', recs') := add_one r w recs in forEach rest w' recs'
  end.

(** [this.records = records] is reached only when the loop completes. *)
Definition add (a : add_arg) (w : world) : world * completion :=
  let '(w', recs, c) := forEach (as_array a) w (records (this w)) in
  match c with
  | Normal => (mkWorld (heap w') (drawn w') (with_records recs (this w')), Normal)
  | Throw e => (w', Throw e)
  end.

(** *** Collection.remove *)

(** The [for ... in] loop: every own property but [uuid] is deleted. *)
Definition delete_all_but_uuid (o : record) : record :=
  Rec (uuid o) Absent None ∅.

(** [now] is the value of [new Date()]. *)
Definition remove (r : loc) (now : Z) (w : world) : world :=
  let o := deref (heap w) r in
  let o' := set_removed true (set_updated (DateObj now) (delete_all_but_uuid o)) in
  mkWorld (<[r := o']> (heap w)) (drawn w) (this w).

(** *** Collection.lock *)

Definition lock (w : world) : world :=
  mkWorld (heap w) (drawn w) (with_password None (with_records [] (this w))).

(** *** Sources *)

(** Modelled from the spec: the Source objects ([defaultSource] and the
    [source] option) are not part of this module. A Source keeps blobs under
    keys; a read of a key that was never written fails with [NotFound], and
    a read or write fails with [Unavailable] on an I/O error. [outages]
    says for each coming request whether it meets an I/O error. A write is
    never partial, but one that meets an I/O error may have been stored all
    the same: [lands] says so for each coming write that meets one. *)
Record Source := mkSource {
  contents : gmap string blob;
  outages : list bool;
  lands : list bool
}.

Inductive source_name :=
| DefaultSource
| GivenSource.

Inductive request :=
| FetchFrom (s : source_name) (key : string)
| SaveTo (s : source_name) (key : string) (data : blob).

(** The two sources a collection deals with and the requests sent so far,
    oldest first. *)
Record sources := mkSources {
  defaultSource : Source;
  givenSource : Source;
  journal : list request
}.

Definition source_fetch (key : string) (s : Source) : Source * (error + blob) :=
  match outages s with
  | true :: rest => (mkSource (contents s) rest (lands s), inl Unavailable)
  | _ =>
      (mkSource (contents s) (tail (outages s)) (lands s),
       match contents s !! key with
       | Some d => inr d
       | None => inl NotFound
       end)
  end.

Definition source_save (key : string) (d : blob) (s : Source) : Source * outcome :=
  match outages s with
  | true :: rest =>
      (mkSource
         (if default false (head (lands s))
          then <[key := d]> (contents s) else contents s)
         rest (tail (lands s)),
       Failed Unavailable)
  | _ =>
      (mkSource (<[key := d]> (contents s)) (tail (outages s)) (lands s),
       Succeeded)
  end.

Definition get_source (n : source_name) (ss : sources) : Source :=
  match n with
  | DefaultSource => defaultSource ss
  | GivenSource => givenSource ss
  end.

Definition set_source (n : source_name) (s : Source) (ss : sources) : sources :=
  match n with
  | DefaultSource => mkSources s (givenSource ss) (journal ss)
  | GivenSource => mkSources (defaultSource ss) s (journal ss)
  end.

Definition logged (r : request) (ss : sources) : sources :=
  mkSources (defaultSource ss) (givenSource ss) (journal ss ++ [r]).

(** *** Store *)

(** The options of a call: [password] and [source]; the [success] and
    [fail] callbacks are the [outcome] a call ends with. *)
Record options := mkOptions {
  opt_password : option string;
  opt_source : option source_name
}.

Definition no_options : options := mkOptions None None.

Definition getKey (c : Collection) : string := "coll_" +:+ name c.

(** [opts.source || this.defaultSource] *)
Definition source_of (o : options) : source_name :=
  default DefaultSource (opt_source o).

(** [opts.password !== undefined && opts.password !== null
      ? opts.password : this.password] *)
Definition password_of (o : options) (s : Store) : option string :=
  match opt_password o with
  | Some p => Some p
  | None => password s
  end.

(** What the success callback handed to the source closes over. *)
Record pending := mkPending {
  pending_source : source_name;
  pending_key : string;
  pending_password : option string
}.

(** [Store.fetch] up to its return: the request is handed to the source and
    the password is remembered. The source answers later. *)
Definition fetch_issue (o : options) (w : world) : world * pending :=
  let p := password_of o (store (this w)) in
  (mkWorld (heap w) (drawn w) (with_password p (this w)),
   mkPending (source_of o) (getKey (this w)) p).

(** [JSON.parse] builds new objects. *)
Fixpoint allocate (doc : list (option record)) (h : list record)
  : list record * list ref :=
  match doc with
  | [] => (h, [])
  | None :: rest =>
      let '(h', rs) := allocate rest h in (h', None :: rs)
  | Some o :: rest =>
      let '(h', rs) := allocate rest (h ++ [o]) in (h', Some (length h) :: rs)
  end.

(** The success callback given to the source: the body of the [try] and
    the [catch]. *)
Definition fetch_data (p : option string) (data : blob) (w : world)
  : world * outcome :=
  match pwdDecrypt p data with
  | inl e => (w, Failed e)
  | inr pt =>
      match JSON_parse pt with
      | inl e => (w, Failed e)
      | inr doc =>
          let '(h, rs) := allocate doc (heap w) in
          match add (Many rs) (mkWorld h (drawn w) (this w)) with
          | (w', Normal) => (w', Succeeded)
          | (w', Throw e) => (w', Failed e)
          end
      end
  end.

(** The source's answer arrives: [success(data)], or [fail] which is
    [opts.fail] itself. *)
Definition fetch_settle (pd : pending) (answer : error + blob) (w : world)
  : world * outcome :=
  match answer with
  | inr data => fetch_data (pending_password pd) data w
  | inl e => (w, Failed e)
  end.

Definition Store_fetch (o : options) (ss : sources) (w : world)
  : world * sources * outcome :=
  let '(w1, pd) := fetch_issue o w in
  let n := pending_source pd in
  let '(s', answer) := source_fetch (pending_key pd) (get_source n ss) in
  let ss' := set_source n s' (logged (FetchFrom n (pending_key pd)) ss) in
  let '(w2, out) := fetch_settle pd answer w1 in
  (w2, ss', out).

Definition Store_save (o : options) (ss : sources) (w : world)
  : sources * outcome :=
  let pt := JSON_stringify (deref (heap w) <$> records (this w)) in
  let c := pwdEncrypt (password (store (this w))) pt in
  let n := source_of o in
  let key := getKey (this w) in
  let '(s', out) := source_save key c (get_source n ss) in
  (set_source n s' (logged (SaveTo n key c) ss), out).

(** *** Collection.fetch, Collection.save, Collection.setPassword *)

Definition Collection_fetch := Store_fetch.

(** Without the [record] option, which no caller in this module passes. *)
Definition Collection_save := Store_save.

Definition setPassword (p : string) (ss : sources) (w : world)
  : world * sources * outcome :=
  let w' := mkWorld (heap w) (drawn w) (with_password (Some p) (this w)) in
  let '(ss', out) := Collection_save no_options ss w' in
  (w', ss', out).

(** *** Collection.sync

    Each step runs from the success callback of the one before; every step
    is given the caller's [fail]. *)
Definition sync (ss : sources) (w : world) : world * sources * outcome :=
  let '(w1, ss1, o1) := Collection_fetch (mkOptions None (Some GivenSource)) ss w in
  match o1 with
  | Failed e => (w1, ss1, Failed e)
  | Succeeded =>
      let '(ss2, o2) := Collection_save no_options ss1 w1 in
      match o2 with
      | Failed e => (w1, ss2, Failed e)
      | Succeeded =>
          let '(ss3, o3) := Collection_save (mkOptions None (Some GivenSource)) ss2 w1 in
          (w1, ss3, o3)
      end
  end.

End Model.

(** ** A stand-in platform

    The simplest modules that behave as the real ones are assumed to: the
    JSON text is the parsed document itself, a blob is the plaintext and
    the password it was encrypted with, and decryption checks the
    password. Used to run the model on concrete inputs. *)

Fixpoint tally (n : nat) : string :=
  match n with
  | O => ""
  | S k => "i" +:+ tally k
  end.

Definition plain_decrypt (p : option string)
    (b : option string * list (option record))
  : error + list (option record) :=
  if decide (p = b.1) then inr b.2 else inl AuthenticationFailed.

Definition plain : Platform := {|
  text := list (option record);
  blob := option string * list (option record);
  util_uuid n := "u" +:+ tally n;
  JSON_stringify rs := (λ o, Some (toJSON o)) <$> rs;
  JSON_parse t := inr t;
  pwdEncrypt p t := (p, t);
  pwdDecrypt := plain_decrypt
|}.

(** ** Statements about a collection *)

(** The record objects of a collection, in order. *)
Definition contents_of (w : world) : list record :=
  deref (heap w) <$> records (this w).

(** Every entry of [uuidMap] is filed under the uuid of the object it
    points to. *)
Definition keyed (w : world) : Prop :=
  ∀ u l, uuidMap (this w) !! u = Some l →
    uuid (deref (heap w) l) = Some u ∧ u ≠ "".

(** Every record of the sequence is reachable through the index under its
    uuid. *)
Definition indexed_in (w : world) (ls : list nat) : Prop :=
  ∀ l, l ∈ ls →
    ∃ u, uuid (deref (heap w) l) = Some u ∧ uuidMap (this w) !! u = Some l.

(** Every entry of the index points to a record present in the sequence. *)
Definition sound_in (w : world) (ls : list nat) : Prop :=
  ∀ u l, uuidMap (this w) !! u = Some l → l ∈ ls.

Definition indexed (w : world) : Prop := indexed_in w (records (this w)).

Definition index_sound (w : world) : Prop := sound_in w (records (this w)).

(** At most one record per uuid in the sequence. *)
Definition one_per_uuid (w : world) : Prop :=
  ∀ i j, (i < length (records (this w)))%nat →
    uuid <$> (contents_of w !! i) = uuid <$> (contents_of w !! j) → i = j.

Definition consistent (w : world) : Prop :=
  one_per_uuid w ∧ index_sound w ∧ indexed w.

(** The uuids of the objects in [ls] are non-empty, known to the index and
    pairwise different. *)
Definition filed (w : world) (ls : list nat) : Prop :=
  (∀ l, l ∈ ls →
     ∃ u, uuid (deref (heap w) l) = Some u ∧ u ≠ ""
          ∧ is_Some (uuidMap (this w) !! u))
  ∧ NoDup ((λ l, uuid (deref (heap w) l)) <$> ls).

(** What the merge maintains whatever happens. *)
Definition merge_inv (w : world) : Prop :=
  keyed w ∧ filed w (records (this w)).

(** What the merge maintains as long as every [add] completes and the
    collection is not locked: [ls] is the array being built. *)
Definition in_step (w : world) (ls : list nat) : Prop :=
  keyed w ∧ indexed_in w ls ∧ sound_in w ls ∧ NoDup ls.

(** Records that can be stored side by side: each has a non-empty uuid and
    no two share one. *)
Definition storable (os : list record) : Prop :=
  Forall (λ o, ∃ u, uuid o = Some u ∧ u ≠ "") os ∧ NoDup (uuid <$> os).

(** ** Sequences of operations

    [Create] is the caller building a record object; the other operations
    are the collection's. *)
Inductive op :=
| Create (o : record)
| Add (a : add_arg)
| Remove (r : loc) (now : Z)
| Lock.

Definition step `{Platform} (w : world) (o : op) : world :=
  match o with
  | Create x => mkWorld (heap w ++ [x]) (drawn w) (this w)
  | Add a => (add a w).1
  | Remove r now => remove r now w
  | Lock => lock w
  end.

Definition run `{Platform} (ops : list op) (w : world) : world :=
  foldl step w ops.

(** A new collection on an empty heap. *)
Definition initial : world :=
  mkWorld [] 0 (new_Collection "" new_Store).

(** The references handed to [add] are objects of the heap or [null]. *)
Definition refers (w : world) (o : op) : Prop :=
  match o with
  | Add a => ∀ l, Some l ∈ as_array a → (l < length (heap w))%nat
  | _ => True
  end.

(** Moreover every [add] completes and the collection is not locked. *)
Definition completes `{Platform} (w : world) (o : op) : Prop :=
  refers w o ∧
  match o with
  | Add a => (add a w).2 = Normal
  | Lock => False
  | _ => True
  end.

(** [ok] holds of every operation in the state it is applied to. *)
Fixpoint allowed `{Platform} (ok : world → op → Prop) (ops : list op) (w : world)
  : Prop :=
  match ops with
  | [] => True
  | o :: rest => ok w o ∧ allowed ok rest (step w o)
  end.

(** A source that meets no I/O error. *)
Definition no_outage `{Platform} (s : Source) : Prop :=
  Forall (λ b, b = false) (outages s).

(** The steps of a synchronisation, as the requests that carry them out. *)
Inductive phase :=
| Pull
| CommitLocal
| Push.

Definition phase_of `{Platform} (r : request) : option phase :=
  match r with
  | FetchFrom GivenSource _ => Some Pull
  | SaveTo DefaultSource _ _ => Some CommitLocal
  | SaveTo GivenSource _ _ => Some Push
  | FetchFrom DefaultSource _ => None
  end.

(** ** Concrete collections *)

Definition mail : record :=
  Rec (Some "a") (IsoString 50) None {["name" := JStr "mail"]}.

(** What another device stored later for the same record. *)
Definition mail_edited : record :=
  Rec (Some "a") (IsoString 200) None {["name" := JStr "webmail"]}.

(** An older copy, not removed. *)
Definition mail_copy : record :=
  Rec (Some "a") (IsoString 50) (Some false) {["name" := JStr "mail"]}.

Definition mail_unstamped : record :=
  Rec (Some "a") Absent None {["name" := JStr "mail"]}.

(** One record, added. *)
Definition stocked : world :=
  @run plain [Create mail; Add (One (Some 0%nat))] initial.

(** The record removed at time 100. *)
Definition tombstoned : world :=
  @run plain [Remove 0%nat 100] stocked.

(** The later version arrives after the removal. *)
Definition tombstoned_then_edited : world :=
  @run plain [Create mail_edited] tombstoned.

Definition stocked_and_copy : world :=
  @run plain [Create mail_copy] stocked.

Definition stocked_and_unstamped : world :=
  @run plain [Create mail_unstamped] stocked.

Definition locked : world :=
  @run plain [Lock] stocked.

(** After [lock], the stored records are read again. *)
Definition unlocked_again : world :=
  @run plain [Create mail; Add (Many [Some 1%nat])] locked.

(** An array whose second entry is [null]. *)
Definition created_only : world :=
  @run plain [Create mail] initial.

Definition with_null : add_arg := Many [Some 0%nat; None].

(** Two sources with nothing stored. *)
Definition empty_sources : @sources plain :=
  mkSources (mkSource ∅ [] []) (mkSource ∅ [] []) [].

(** The default source holds a collection encrypted with "right". *)
Definition right_sources : @sources plain :=
  mkSources
    (mkSource {["coll_default" := (Some "right", [Some mail])]} [] [])
    (mkSource ∅ [] []) [].

(** ** The rest of the module *)

(** How a call ends for its caller: with an exception on the spot, or later
    with one of the two callbacks. *)
Inductive ending (A : Type) :=
| Raised (e : error)
| Refused (e : error)
| Delivered (a : A).

Arguments Raised {A} e.
Arguments Refused {A} e.
Arguments Delivered {A} a.

(** *** JSON values as conditions and as objects *)

(** ToBoolean on a property that may be absent. *)
Definition json_truthy (j : option json) : bool :=
  match j with
  | None | Some JNull => false
  | Some (JBool b) => b
  | Some (JNum n) => negb (Z.eqb n 0)
  | Some (JStr s) => negb (String.eqb s "")
  | Some (JArr _) | Some (JObj _) => true
  end.

Fixpoint assoc (k : string) (kvs : list (string * json)) : option json :=
  match kvs with
  | [] => None
  | (k', v) :: rest => if decide (k' = k) then Some v else assoc k rest
  end.

(** [j.k] for a value other than [null]: the member of an object; a
    number, a boolean, a string or an array has no property of the names
    read here. *)
Definition member (k : string) (j : json) : option json :=
  match j with
  | JObj kvs => assoc k kvs
  | _ => None
  end.

(** *** Collection.save with the [record] option *)

(** [field.name || field.value] as a condition. *)
Definition field_filled (f : json) : bool :=
  json_truthy (member "name" f) || json_truthy (member "value" f).

(** The callback of [filter]. Reading a property of [null] throws. *)
Definition field_kept (f : json) : error + bool :=
  match f with
  | JNull => inl TypeError
  | _ => inr (field_filled f)
  end.

(** [fields.filter(...)]: the callback runs on every element in order; an
    exception in it ends the call. *)
Fixpoint filter_fields (items : list json) : error + list json :=
  match items with
  | [] => inr []
  | f :: rest =>
      match field_kept f with
      | inl e => inl e
      | inr keep =>
          match filter_fields rest with
          | inl e => inl e
          | inr kept => inr (if keep then f :: kept else kept)
          end
      end
  end.

(** [rec.name || "Unnamed"] *)
Definition name_or_default (o : record) : json :=
  if json_truthy (attrs o !! "name")
  then default (JStr "Unnamed") (attrs o !! "name")
  else JStr "Unnamed".

(** The three statements on [rec]. The name is written first; calling
    [filter] on anything but an array throws, and then neither [fields] nor
    [updated] is written. *)
Definition normalise (now : Z) (o : record) : record * completion :=
  let named :=
    Rec (uuid o) (updated o) (removed o)
        (<["name" := name_or_default o]> (attrs o)) in
  match attrs o !! "fields" with
  | Some (JArr items) =>
      match filter_fields items with
      | inr kept =>
          (Rec (uuid o) (DateObj now) (removed o)
               (<["fields" := JArr kept]> (attrs named)), Normal)
      | inl e => (named, Throw e)
      end
  | _ => (named, Throw TypeError)
  end.

Section More_model.
Context `{Platform}.

(** [Collection.save(opts)] with [opts.record] the object [rec]; [now] is
    the value of [new Date()]. *)
Definition Collection_save_record
    (rec : loc) (now : Z) (o : options) (ss : sources) (w : world)
  : world * sources * ending unit :=
  let '(o', c) := normalise now (deref (heap w) rec) in
  let w' := mkWorld (<[rec := o']> (heap w)) (drawn w) (this w) in
  match c with
  | Throw e => (w', ss, Raised e)
  | Normal =>
      match Store_save o ss w' with
      | (ss', Succeeded) => (w', ss', Delivered ())
      | (ss', Failed e) => (w', ss', Refused e)
      end
  end.

(** *** Store.exists and Collection.exists *)

(** Modelled from the spec: [exists] of a Source answers whether a blob is
    kept under the key; like a read or write it can meet an I/O error. *)
Definition source_exists (key : string) (s : Source) : Source * ending bool :=
  match outages s with
  | true :: rest => (mkSource (contents s) rest (lands s), Refused Unavailable)
  | _ =>
      (mkSource (contents s) (tail (outages s)) (lands s),
       Delivered (bool_decide (is_Some (contents s !! key))))
  end.

(** [opts] may be left out by the caller. [opts.source] is read before
    [opts = opts || {}]. *)
Definition Store_exists (o : option options) (ss : sources) (w : world)
  : sources * ending bool :=
  match o with
  | None => (ss, Raised TypeError)
  | Some o =>
      let n := source_of o in
      let '(s', answer) := source_exists (getKey (this w)) (get_source n ss) in
      (set_source n s' ss, answer)
  end.

Definition Collection_exists := Store_exists.

End More_model.

(** ** More statements about a collection *)

(** The objects of an array up to its first [null]: those the loop of
    [add] reaches. *)
Fixpoint reached (rs : list ref) : list nat :=
  match rs with
  | Some r :: rest => r :: reached rest
  | _ => []
  end.

(** How the loop of [add] ends on an array. *)
Fixpoint ends (rs : list ref) : completion :=
  match rs with
  | [] => Normal
  | None :: _ => Throw TypeError
  | Some _ :: rest => ends rest
  end.

(** The object has a uuid, and the index holds for it a record the object
    does not compare greater than. *)
Definition settled (w : world) (r : nat) : Prop :=
  ∃ u e, uuid (deref (heap w) r) = Some u ∧ u ≠ ""
         ∧ uuidMap (this w) !! u = Some e
         ∧ js_gt (updated (deref (heap w) r)) (updated (deref (heap w) e)) = false.

(** Both stamps are [Date]s or both are strings. *)
Definition same_kind (a b : stamp) : bool :=
  match a, b with
  | DateObj _, DateObj _ | IsoString _, IsoString _ => true
  | _, _ => false
  end.

(** ** More concrete collections *)

(** Two versions of one record, neither added yet. *)
Definition two_versions : world :=
  @run plain [Create mail; Create mail_edited] initial.

Definition stocked_and_edited : world :=
  @run plain [Create mail_edited] stocked.

(** A record that has no uuid yet. *)
Definition anonymous : record :=
  Rec None Absent None {["name" := JStr "bank"]}.

Definition with_anonymous : world :=
  @run plain [Create anonymous] initial.

Definition quiet_day : list op :=
  [Create mail; Add (One (Some 0%nat)); Remove 0%nat 100].

(** The given source holds a later version of the record, encrypted with
    the password of a new store. *)
Definition remote_sources : @sources plain :=
  mkSources
    (mkSource ∅ [] [])
    (mkSource {["coll_default" := (Some "", [Some mail_edited])]} [] []) [].

(** A record under edit: no name, one field with a name, one empty field
    and a stray number among the fields. *)
Definition draft : record :=
  Rec (Some "d") (IsoString 50) None
    (<["fields" :=
         JArr [JObj [("name", JStr "user"); ("value", JStr "")];
               JObj [("name", JStr ""); ("value", JStr "")];
               JNum 7]]>
       {["name" := JStr ""]}).

Definition draft_fields : list json :=
  [JObj [("name", JStr "user"); ("value", JStr "")];
   JObj [("name", JStr ""); ("value", JStr "")];
   JNum 7].

Definition drafted : world :=
  @run plain [Create draft; Add (One (Some 0%nat))] initial.

(** ** What the statements ask of uuids *)

(** No record has for uuid a name that every object inherits. *)
Definition plainly_named (os : list record) : Prop :=
  Forall (λ o, ∀ u, uuid o = Some u → inherited u = false) os.

(** ** A second stand-in platform

    As [plain], with a codec that rejects a wrong password by the error it
    also raises for a damaged blob. *)
Definition vague_decrypt (p : option string)
    (b : option string * list (option record))
  : error + list (option record) :=
  if decide (p = b.1) then inr b.2 else inl CorruptData.

Definition vague : Platform := {|
  text := list (option record);
  blob := option string * list (option record);
  util_uuid n := "u" +:+ tally n;
  JSON_stringify rs := (λ o, Some (toJSON o)) <$> rs;
  JSON_parse t := inr t;
  pwdEncrypt p t := (p, t);
  pwdDecrypt := vague_decrypt
|}.

(** The default source holds a collection encrypted with "right". *)
Definition vague_sources : @sources vague :=
  mkSources
    (@mkSource vague {["coll_default" := (Some "right", [Some mail])]} [] [])
    (@mkSource vague ∅ [] []) [].

(** ** Concrete inputs, continued *)

(** A second record, and a later version of it. *)
Definition bank : record :=
  Rec (Some "b") (IsoString 60) None {["name" := JStr "bank"]}.

Definition bank_edited : record :=
  Rec (Some "b") (IsoString 300) None {["name" := JStr "bank, new"]}.

Definition shop : record :=
  Rec (Some "c") (DateObj 70) None {["name" := JStr "shop"]}.

(** Operations with a [lock] and a failing [add] among them, and records
    added after. *)
Definition rough_week : list op :=
  [Create mail; Add (One (Some 0%nat)); Lock; Create mail_edited;
   Add (Many [Some 1%nat; None]);
   Create bank; Add (One (Some 2%nat));
   Create bank_edited; Create shop; Add (Many [Some 3%nat; Some 4%nat]);
   Remove 4%nat 400].

(** The given source holds a later version of the record; the default
    source meets an I/O error at its first request. *)
Definition local_down_sources : @sources plain :=
  mkSources
    (mkSource ∅ [true] [])
    (mkSource {["coll_default" := (Some "", [Some mail_edited])]} [] []) [].

(** * Properties *)

Section Merge.
Context `{Platform}.

(** ** Reading and writing the heap *)

Lemma deref_lookup (h : list record) (l : loc) (o : record) :
  h !! l = Some o → deref h l = o.
Proof. unfold deref. by intros ->. Qed.

Lemma deref_allocated (h : list record) (l : loc) (u : string) :
  uuid (deref h l) = Some u → (l < length h)%nat.
Proof.
  unfold deref. destruct (h !! l) as [o|] eqn:E; simpl; [|done].
  intros _. by eapply lookup_lt_Some.
Qed.

Lemma deref_insert_eq (h : list record) (l : loc) (o : record) :
  (l < length h)%nat → deref (<[l := o]> h) l = o.
Proof. intros Hl. unfold deref. by rewrite list_lookup_insert_eq. Qed.

Lemma deref_insert_ne (h : list record) (l l' : loc) (o : record) :
  l ≠ l' → deref (<[l := o]> h) l' = deref h l'.
Proof. intros Hne. unfold deref. by rewrite list_lookup_insert_ne. Qed.

Lemma set_uuid_same (o : record) (u : string) :
  uuid o = Some u → set_uuid u o = o.
Proof. destruct o; simpl. by intros ->. Qed.

(** Writing back the uuid an object already has changes nothing. *)
Lemma heap_write_same (h : list record) (l : loc) (u : string) :
  uuid (deref h l) = Some u → <[l := set_uuid u (deref h l)]> h = h.
Proof.
  intros Hu. rewrite (set_uuid_same _ _ Hu).
  pose proof (deref_allocated _ _ _ Hu) as Hl.
  destruct (lookup_lt_is_Some_2 h l Hl) as [o Ho].
  rewrite (deref_lookup _ _ _ Ho). by apply list_insert_id.
Qed.

Lemma uuid_or_new_keeps (o : record) (n : nat) (u : string) :
  uuid o = Some u → u ≠ "" → uuid_or_new o n = (u, n).
Proof. intros Hu Hne. unfold uuid_or_new. rewrite Hu. by case_decide. Qed.

Lemma world_eta (w : world) :
  mkWorld (heap w) (drawn w) (this w) = w.
Proof. by destruct w. Qed.

Lemma with_records_eta (c : Collection) :
  with_records (records c) c = c.
Proof. by destruct c. Qed.

(** ** The three branches of the merge *)

(** No record under the uuid: the object is appended and indexed. *)
Lemma add_one_appends (r : loc) (w : world) (recs : list loc) (u : string) :
  uuid (deref (heap w) r) = Some u → u ≠ "" →
  uuidMap (this w) !! u = None →
  add_one r w recs =
    (mkWorld (heap w) (drawn w)
       (with_uuidMap (<[u := r]> (uuidMap (this w))) (this w)),
     recs ++ [r]).
Proof.
  intros Hu Hne Hm. unfold add_one.
  rewrite (uuid_or_new_keeps _ _ _ Hu Hne), Hm.
  by rewrite (heap_write_same _ _ _ Hu).
Qed.

(** A record under the uuid and [r.updated > existing.updated]: the object
    takes the place of the existing one and the index points to it. *)
Lemma add_one_replaces (r e : loc) (w : world) (recs : list loc) (u : string) :
  uuid (deref (heap w) r) = Some u → u ≠ "" →
  uuidMap (this w) !! u = Some e →
  truthy (updated (deref (heap w) r)) = true →
  js_gt (updated (deref (heap w) r)) (updated (deref (heap w) e)) = true →
  add_one r w recs =
    (mkWorld (heap w) (drawn w)
       (with_uuidMap (<[u := r]> (uuidMap (this w))) (this w)),
     put_at (indexOf e recs) r recs).
Proof.
  intros Hu Hne Hm Ht Hgt. unfold add_one.
  rewrite (uuid_or_new_keeps _ _ _ Hu Hne), Hm.
  by rewrite (heap_write_same _ _ _ Hu), Ht, Hgt.
Qed.

(** A record under the uuid and the comparison is false: nothing changes. *)
Lemma add_one_keeps (r e : loc) (w : world) (recs : list loc) (u : string) :
  uuid (deref (heap w) r) = Some u → u ≠ "" →
  uuidMap (this w) !! u = Some e →
  truthy (updated (deref (heap w) r))
    && js_gt (updated (deref (heap w) r)) (updated (deref (heap w) e)) = false →
  add_one r w recs = (w, recs).
Proof.
  intros Hu Hne Hm Hgt. unfold add_one.
  rewrite (uuid_or_new_keeps _ _ _ Hu Hne), Hm.
  rewrite (heap_write_same _ _ _ Hu), Hgt. by rewrite world_eta.
Qed.

Lemma add_single (r : loc) (w : world) :
  add (One (Some r)) w =
    (let '(w', recs) := add_one r w (records (this w)) in
     mkWorld (heap w') (drawn w') (with_records recs (this w')), Normal).
Proof. unfold add. simpl. by destruct (add_one r w (records (this w))). Qed.

Lemma add_single_keeps (r e : loc) (w : world) (u : string) :
  uuid (deref (heap w) r) = Some u → u ≠ "" →
  uuidMap (this w) !! u = Some e →
  truthy (updated (deref (heap w) r))
    && js_gt (updated (deref (heap w) r)) (updated (deref (heap w) e)) = false →
  add (One (Some r)) w = (w, Normal).
Proof.
  intros Hu Hne Hm Hgt. rewrite add_single.
  rewrite (add_one_keeps _ _ _ _ _ Hu Hne Hm Hgt).
  by rewrite with_records_eta, world_eta.
Qed.

(** Where the replaced record stood. *)
Lemma indexOf_lookup (x : loc) (l : list loc) (i : nat) :
  indexOf x l = Some i → l !! i = Some x.
Proof.
  revert i. induction l as [|y l IH]; intros i; simpl; [done|].
  case_decide as Hy.
  - intros [= <-]. by subst.
  - destruct (indexOf x l) as [j|]; simpl; [|done].
    intros [= <-]. by apply IH.
Qed.

Lemma indexOf_elem (x : loc) (l : list loc) :
  x ∈ l → is_Some (indexOf x l).
Proof.
  induction 1 as [y l|y z l Hin IH]; simpl.
  - rewrite decide_True by done. eauto.
  - case_decide; [eauto|]. destruct IH as [j ->]. simpl. eauto.
Qed.

Lemma indexOf_None (x : loc) (l : list loc) :
  indexOf x l = None → x ∉ l.
Proof.
  intros Hn Hin. destruct (indexOf_elem _ _ Hin) as [j Hj]. congruence.
Qed.

Lemma indexOf_first (x : loc) (l : list loc) (i : nat) :
  NoDup l → l !! i = Some x → indexOf x l = Some i.
Proof.
  intros Hnd Hi. destruct (indexOf_elem x l) as [j Hj].
  { apply list_elem_of_lookup. eauto. }
  rewrite Hj. f_equal.
  apply (NoDup_lookup l j i x Hnd); [by apply indexOf_lookup|done].
Qed.

(** ** The comparison on timestamps held alike *)

Lemma js_gt_dates (x y : Z) : js_gt (DateObj x) (DateObj y) = true ↔ y < x.
Proof. simpl. apply Z.ltb_lt. Qed.

Lemma js_gt_strings (x y : Z) : js_gt (IsoString x) (IsoString y) = true ↔ y < x.
Proof. simpl. apply Z.ltb_lt. Qed.

(** A string is never greater than a [Date], nor a [Date] than a string. *)
Lemma js_gt_mixed (x y : Z) :
  js_gt (IsoString x) (DateObj y) = false ∧ js_gt (DateObj x) (IsoString y) = false.
Proof. done. Qed.

(** The first case of the merge for a whole call: the later record stands
    where the existing one stood, and the index points to it. *)
Lemma add_replaces_in_place (r e : loc) (w : world) (u : string) (i : nat) :
  uuid (deref (heap w) r) = Some u → u ≠ "" →
  uuidMap (this w) !! u = Some e →
  NoDup (records (this w)) → records (this w) !! i = Some e →
  truthy (updated (deref (heap w) r)) = true →
  js_gt (updated (deref (heap w) r)) (updated (deref (heap w) e)) = true →
  add (One (Some r)) w =
    (mkWorld (heap w) (drawn w)
       (mkCollection (name (this w)) (store (this w))
          (<[i := r]> (records (this w))) (<[u := r]> (uuidMap (this w)))),
     Normal).
Proof.
  intros Hu Hne Hm Hnd Hi Ht Hgt. rewrite add_single.
  rewrite (add_one_replaces _ _ _ _ _ Hu Hne Hm Ht Hgt).
  by rewrite (indexOf_first _ _ _ Hnd Hi).
Qed.

(** The third case for a whole call. *)
Lemma add_appends (r : loc) (w : world) (u : string) :
  uuid (deref (heap w) r) = Some u → u ≠ "" →
  uuidMap (this w) !! u = None →
  add (One (Some r)) w =
    (mkWorld (heap w) (drawn w)
       (mkCollection (name (this w)) (store (this w))
          (records (this w) ++ [r]) (<[u := r]> (uuidMap (this w)))),
     Normal).
Proof.
  intros Hu Hne Hm. rewrite add_single.
  by rewrite (add_one_appends _ _ _ _ Hu Hne Hm).
Qed.

End Merge.

Section Claims_on_add_and_remove.
Context `{Platform}.

(** ** What the loop leaves alone

    The loop writes to the heap, to [uuidMap] and to its local array; the
    [records] property, the name and the store are not touched. *)

Lemma add_one_frame (r : loc) (w : world) (recs : list loc) :
  records (this (add_one r w recs).1) = records (this w)
  ∧ store (this (add_one r w recs).1) = store (this w)
  ∧ name (this (add_one r w recs).1) = name (this w).
Proof.
  unfold add_one.
  destruct (uuid_or_new (deref (heap w) r) (drawn w)) as [u n].
  destruct (uuidMap (this w) !! u) as [e|]; [|done].
  by destruct (truthy _ && js_gt _ _).
Qed.

Lemma forEach_frame (rs : list ref) (w : world) (recs : list loc) :
  records (this (forEach rs w recs).1.1) = records (this w)
  ∧ store (this (forEach rs w recs).1.1) = store (this w)
  ∧ name (this (forEach rs w recs).1.1) = name (this w).
Proof.
  revert w recs. induction rs as [|[r|] rs IH]; intros w recs; simpl; [done| |done].
  pose proof (add_one_frame r w recs) as (Hr & Hs & Hn).
  destruct (add_one r w recs) as [w' recs']. simpl in *.
  destruct (IH w' recs') as (Hr' & Hs' & Hn').
  by rewrite Hr', Hs', Hn'.
Qed.

Lemma add_frame (a : add_arg) (w : world) :
  store (this (add a w).1) = store (this w)
  ∧ name (this (add a w).1) = name (this w).
Proof.
  unfold add.
  pose proof (forEach_frame (as_array a) w (records (this w))) as (_ & Hs & Hn).
  destruct (forEach (as_array a) w (records (this w))) as [[w' recs] c].
  simpl in *. by destruct c.
Qed.

(** When [add] throws partway through the merge, the [records] sequence
    of the collection is the one it was before the call. *)
Lemma add_throw_keeps_records (a : add_arg) (w w' : world) (e : error) :
  add a w = (w', Throw e) → records (this w') = records (this w).
Proof.
  unfold add.
  pose proof (forEach_frame (as_array a) w (records (this w))) as (Hr & _).
  destruct (forEach (as_array a) w (records (this w))) as [[w1 recs] c].
  simpl in Hr. destruct c; [done|].
  by intros [= <- _].
Qed.

(** C9: an incoming record without an [updated] timestamp whose uuid is
    already in the index is discarded; the collection, the index and the
    heap stay as they were, whatever the [updated] of the existing record
    is. *)
Theorem add_without_timestamp_discarded (r e : loc) (w : world) (u : string) :
  uuid (deref (heap w) r) = Some u → u ≠ "" →
  updated (deref (heap w) r) = Absent →
  uuidMap (this w) !! u = Some e →
  add (One (Some r)) w = (w, Normal).
Proof.
  intros Hu Hne Ha Hm. eapply add_single_keeps; [done..|].
  by rewrite Ha.
Qed.

(** What [remove] writes, and where. *)
Lemma remove_in_place (r : loc) (now : Z) (w : world) :
  (r < length (heap w))%nat →
  deref (heap (remove r now w)) r
    = Rec (uuid (deref (heap w) r)) (DateObj now) (Some true) ∅
  ∧ (∀ l, l ≠ r → deref (heap (remove r now w)) l = deref (heap w) l)
  ∧ this (remove r now w) = this w.
Proof.
  intros Hr. unfold remove. simpl. split_and!.
  - by rewrite deref_insert_eq.
  - intros l Hl. by rewrite deref_insert_ne.
  - done.
Qed.

(** C6: [remove] turns the object itself into a tombstone: it keeps its
    uuid, [updated] is the current time, [removed] is true and no other
    property is left; every other object, the [records] sequence and the
    index are as before. *)
Theorem remove_makes_tombstone (r : loc) (now : Z) (w : world) :
  (r < length (heap w))%nat →
  uuid (deref (heap (remove r now w)) r) = uuid (deref (heap w) r)
  ∧ updated (deref (heap (remove r now w)) r) = DateObj now
  ∧ removed (deref (heap (remove r now w)) r) = Some true
  ∧ attrs (deref (heap (remove r now w)) r) = ∅
  ∧ (∀ l, l ≠ r → deref (heap (remove r now w)) l = deref (heap w) l)
  ∧ records (this (remove r now w)) = records (this w)
  ∧ uuidMap (this (remove r now w)) = uuidMap (this w).
Proof.
  intros Hr. destruct (remove_in_place r now w Hr) as (Ho & Hl & Ht).
  rewrite Ho, Ht. by split_and!.
Qed.

(** The comparison against a tombstone fails for every stamp that is not
    later. *)
Lemma not_later_than_date (s : stamp) (t now : Z) :
  instant s = Some t → t ≤ now → js_gt s (DateObj now) = false.
Proof.
  destruct s as [|x|x]; simpl; [done| |done].
  intros [= ->] Hle. apply Z.ltb_ge. lia.
Qed.

(** C5: after [remove] made the record under a uuid a tombstone, adding a
    copy with that uuid and an earlier [updated] changes nothing: the
    tombstone is still the record stored for the uuid. *)
Theorem tombstone_survives_older_copy
    (r c : loc) (now t : Z) (w : world) (u : string) :
  uuid (deref (heap w) r) = Some u → u ≠ "" →
  uuidMap (this w) !! u = Some r →
  uuid (deref (heap (remove r now w)) c) = Some u →
  instant (updated (deref (heap (remove r now w)) c)) = Some t →
  t < now →
  add (One (Some c)) (remove r now w) = (remove r now w, Normal)
  ∧ uuidMap (this (remove r now w)) !! u = Some r
  ∧ deref (heap (remove r now w)) r = Rec (Some u) (DateObj now) (Some true) ∅.
Proof.
  intros Hu Hne Hm Hc Ht Hlt.
  pose proof (deref_allocated _ _ _ Hu) as Hr.
  destruct (remove_in_place r now w Hr) as (Hr' & _ & Hthis).
  rewrite Hu in Hr'. split_and!; [|by rewrite Hthis|done].
  eapply add_single_keeps; [exact Hc|done|by rewrite Hthis|].
  rewrite Hr'. simpl. rewrite (not_later_than_date _ t now); [|done|lia].
  apply andb_false_r.
Qed.

End Claims_on_add_and_remove.

Section Claims_on_the_store.
Context `{Platform}.

(** ** Fetching *)

Lemma fetch_data_frame (p : option string) (data : blob) (w : world) :
  store (this (fetch_data p data w).1) = store (this w)
  ∧ name (this (fetch_data p data w).1) = name (this w).
Proof.
  unfold fetch_data.
  destruct (pwdDecrypt p data) as [e|pt]; [done|].
  destruct (JSON_parse pt) as [e|doc]; [done|].
  destruct (allocate doc (heap w)) as [h rs].
  pose proof (add_frame (Many rs) (mkWorld h (drawn w) (this w))) as Hf.
  destruct (add (Many rs) (mkWorld h (drawn w) (this w))) as [w' c].
  by destruct c.
Qed.

Lemma fetch_settle_frame (pd : pending) (answer : error + blob) (w : world) :
  store (this (fetch_settle pd answer w).1) = store (this w)
  ∧ name (this (fetch_settle pd answer w).1) = name (this w).
Proof. destruct answer; [done|]. apply fetch_data_frame. Qed.

Lemma Store_fetch_unfold (o : options) (ss : sources) (w : world) :
  Store_fetch o ss w =
    (let pd := (fetch_issue o w).2 in
     let got := source_fetch (pending_key pd) (get_source (pending_source pd) ss) in
     let r := fetch_settle pd got.2 (fetch_issue o w).1 in
     (r.1,
      set_source (pending_source pd) got.1
        (logged (FetchFrom (pending_source pd) (pending_key pd)) ss),
      r.2)).
Proof.
  unfold Store_fetch. destruct (fetch_issue o w) as [w1 pd]. simpl.
  destruct (source_fetch _ _) as [s' answer]. simpl.
  by destruct (fetch_settle pd answer w1).
Qed.

(** C10: [Store.fetch] has made the password it resolved (the one in the
    options when there is one, the store's own otherwise) the store's
    password by the time it returns, before the source has answered;
    whatever the source answers afterwards, a failure or a blob that
    password does not open included, leaves it there; and it is the
    password a later save encrypts with and a later fetch without a
    password decrypts with. *)
Theorem fetch_caches_password (o : options) (w : world) :
  let resolved :=
    match opt_password o with
    | Some p => Some p
    | None => password (store (this w))
    end in
  password (store (this (fetch_issue o w).1)) = resolved
  ∧ (∀ answer,
      password (store (this (fetch_settle (fetch_issue o w).2 answer
                                          (fetch_issue o w).1).1))
      = resolved)
  ∧ (∀ ss,
      password (store (this (Store_fetch o ss w).1.1)) = resolved
      ∧ (∀ o' ss',
          journal (Store_save o' ss' (Store_fetch o ss w).1.1).1
          = journal ss'
            ++ [SaveTo (source_of o') (getKey (this w))
                  (pwdEncrypt resolved
                     (JSON_stringify (contents_of (Store_fetch o ss w).1.1)))])
      ∧ (∀ n, pending_password
                (fetch_issue (mkOptions None n) (Store_fetch o ss w).1.1).2
              = resolved)).
Proof.
  assert (∀ ss, password (store (this (Store_fetch o ss w).1.1))
                = password_of o (store (this w))
                ∧ name (this (Store_fetch o ss w).1.1) = name (this w))
    as Hkept.
  { intros ss. rewrite Store_fetch_unfold. simpl.
    match goal with |- context [fetch_settle ?pd ?a ?w1] =>
      by destruct (fetch_settle_frame pd a w1) as [-> ->] end. }
  cbv zeta. split_and!.
  - done.
  - intros answer.
    by destruct (fetch_settle_frame (fetch_issue o w).2 answer (fetch_issue o w).1)
      as [-> _].
  - intros ss. destruct (Hkept ss) as [Hp Hn]. split_and!.
    + exact Hp.
    + intros o' ss'. unfold Store_save, contents_of, getKey.
      rewrite Hp, Hn.
      destruct (source_save _ _ _) as [s' out]. simpl.
      by destruct (source_of o').
    + intros n. simpl. unfold password_of. simpl. exact Hp.
Qed.

Lemma source_fetch_answer (key : string) (s : Source) :
  head (outages s) ≠ Some true →
  (source_fetch key s).2 =
    match contents s !! key with Some d => inr d | None => inl NotFound end.
Proof.
  unfold source_fetch. by destruct (outages s) as [|[|] rest].
Qed.

(** C8, as amended: a blob encrypted with one password and fetched with
    another, by a codec that rejects a wrong password: the fetch fails with
    the very error the codec raised, whichever it is, and nothing is
    merged; heap, [records] and [uuidMap] are as before (the store only
    remembers the password that was tried). *)
Theorem wrong_password_fetch_rejected
    (o : options) (ss : sources) (w : world) (p : option string) (t : text) :
  (∀ p q t, p ≠ q → ∃ e, pwdDecrypt q (pwdEncrypt p t) = inl e) →
  contents (get_source (source_of o) ss) !! getKey (this w)
    = Some (pwdEncrypt p t) →
  head (outages (get_source (source_of o) ss)) ≠ Some true →
  password_of o (store (this w)) ≠ p →
  ∃ e, pwdDecrypt (password_of o (store (this w))) (pwdEncrypt p t) = inl e
       ∧ (Store_fetch o ss w).2 = Failed e
       ∧ (Store_fetch o ss w).1.1
         = mkWorld (heap w) (drawn w)
             (with_password (password_of o (store (this w))) (this w)).
Proof.
  intros Hcodec Hblob Hup Hp.
  destruct (Hcodec p (password_of o (store (this w))) t) as [e He]; [done|].
  exists e. split; [exact He|].
  rewrite Store_fetch_unfold. simpl.
  rewrite (source_fetch_answer _ _ Hup), Hblob. simpl.
  unfold fetch_data. by rewrite He.
Qed.

(** When the error the codec raises for a wrong password is
    [AuthenticationFailed], that is what the fetch fails with. *)
Lemma wrong_password_fetch_fails
    (o : options) (ss : sources) (w : world) (p : option string) (t : text) :
  (∀ p q t, p ≠ q → pwdDecrypt q (pwdEncrypt p t) = inl AuthenticationFailed) →
  contents (get_source (source_of o) ss) !! getKey (this w)
    = Some (pwdEncrypt p t) →
  head (outages (get_source (source_of o) ss)) ≠ Some true →
  password_of o (store (this w)) ≠ p →
  (Store_fetch o ss w).2 = Failed AuthenticationFailed
  ∧ (Store_fetch o ss w).1.1
    = mkWorld (heap w) (drawn w)
        (with_password (password_of o (store (this w))) (this w)).
Proof.
  intros Hcodec Hblob Hup Hp.
  rewrite Store_fetch_unfold. simpl.
  rewrite (source_fetch_answer _ _ Hup), Hblob. simpl.
  unfold fetch_data. by rewrite (Hcodec p _ t).
Qed.

End Claims_on_the_store.

Section Round_trip.
Context `{Platform}.

(** ** Saving and fetching back *)

Lemma allocate_objects (os : list record) (h : list record) :
  allocate (Some <$> os) h = (h ++ os, Some <$> seq (length h) (length os)).
Proof.
  revert h. induction os as [|o os IH]; intros h; simpl.
  - by rewrite app_nil_r.
  - rewrite IH, length_app, <- app_assoc. simpl.
    by rewrite Nat.add_1_r.
Qed.

Lemma deref_fresh (h os : list record) :
  deref (h ++ os) <$> seq (length h) (length os) = os.
Proof.
  revert h. induction os as [|o os IH]; intros h; simpl; [done|].
  f_equal.
  - unfold deref. by rewrite list_lookup_middle.
  - specialize (IH (h ++ [o])).
    rewrite length_app, <- app_assoc in IH. simpl in IH.
    by rewrite Nat.add_1_r in IH.
Qed.

(** Objects whose uuids are new to the index and differ from one another
    are all appended, in order; the heap is not written. *)
Lemma forEach_appends (ls : list loc) (w : world) (recs : list loc) :
  (∀ l, l ∈ ls → ∃ u, uuid (deref (heap w) l) = Some u ∧ u ≠ ""
                      ∧ uuidMap (this w) !! u = None) →
  NoDup ((λ l, uuid (deref (heap w) l)) <$> ls) →
  ∃ m, forEach (Some <$> ls) w recs
       = (mkWorld (heap w) (drawn w) (with_uuidMap m (this w)),
          recs ++ ls, Normal).
Proof.
  revert w recs. induction ls as [|l ls IH]; intros w recs Hnew Hnd; simpl.
  - exists (uuidMap (this w)). rewrite app_nil_r.
    destruct w as [h n c]; simpl. by destruct c.
  - destruct (Hnew l) as (u & Hu & Hne & Hm); [by left|].
    rewrite (add_one_appends _ _ _ _ Hu Hne Hm).
    apply NoDup_cons in Hnd as [Hl Hnd].
    set (w1 := mkWorld (heap w) (drawn w)
                 (with_uuidMap (<[u:=l]> (uuidMap (this w))) (this w))).
    destruct (IH w1 (recs ++ [l])) as [m Hm'].
    + intros l' Hl'. destruct (Hnew l') as (u' & Hu' & Hne' & Hm''); [by right|].
      exists u'. split_and!; [done..|]. simpl.
      rewrite lookup_insert_ne; [done|].
      intros ->. apply Hl. rewrite Hu, <- Hu'.
      by apply (list_elem_of_fmap_2 (λ l, uuid (deref (heap w) l))).
    + done.
    + exists m. change (forEach (Some <$> ls) w1 (recs ++ [l]) = 
        (mkWorld (heap w) (drawn w) (with_uuidMap m (this w)), recs ++ l :: ls, Normal)).
      rewrite Hm'. unfold w1; simpl. rewrite <- app_assoc. simpl. done.
Qed.

Lemma toJSON_uuid (o : record) : uuid (toJSON o) = uuid o.
Proof. unfold toJSON. by destruct (updated o). Qed.

Lemma storable_toJSON (os : list record) :
  storable os → storable (toJSON <$> os).
Proof.
  intros [Hall Hnd]. split.
  - rewrite Forall_fmap. eapply Forall_impl; [exact Hall|].
    intros o (u & Hu & Hne). exists u. simpl. by rewrite toJSON_uuid.
  - rewrite <- list_fmap_compose.
    rewrite (list_fmap_ext (uuid ∘ toJSON) uuid os); [done|].
    intros i o _. apply toJSON_uuid.
Qed.

(** The success callback on the text of storable records, in an empty
    collection: every record is appended. *)
Lemma fetch_data_into_empty
    (p : option string) (data : blob) (os : list record) (w0 : world) :
  pwdDecrypt p data = inr (JSON_stringify os) →
  (∀ rs, JSON_parse (JSON_stringify rs) = inr ((λ r, Some (toJSON r)) <$> rs)) →
  storable os →
  records (this w0) = [] → uuidMap (this w0) = ∅ →
  (fetch_data p data w0).2 = Succeeded
  ∧ contents_of (fetch_data p data w0).1 = toJSON <$> os.
Proof.
  intros Hdec Hjson Hos Hr Hm. unfold fetch_data.
  rewrite Hdec, Hjson.
  rewrite (list_fmap_compose toJSON Some), allocate_objects.
  apply storable_toJSON in Hos as [Hall Hnd].
  set (os' := toJSON <$> os) in *.
  set (w1 := mkWorld (heap w0 ++ os') (drawn w0) (this w0)).
  destruct (forEach_appends (seq (length (heap w0)) (length os')) w1
              (records (this w1))) as [m Hrun].
  - intros l Hl. apply list_elem_of_lookup in Hl as [i Hi].
    apply lookup_seq in Hi as [-> Hi].
    destruct (lookup_lt_is_Some_2 os' i Hi) as [o Ho].
    rewrite Forall_lookup in Hall. destruct (Hall i o Ho) as (u & Hu & Hne).
    exists u. simpl. unfold deref.
    rewrite lookup_app_r, Nat.add_comm, Nat.add_sub by lia.
    rewrite Ho. simpl. by rewrite Hm, lookup_empty.
  - simpl.
    change (NoDup ((uuid ∘ deref (heap w0 ++ os')) <$>
                     seq (length (heap w0)) (length os'))).
    by rewrite list_fmap_compose, deref_fresh.
  - unfold add. simpl in *. rewrite Hrun. simpl. split; [done|].
    unfold contents_of. simpl. rewrite Hr. simpl. apply deref_fresh.
Qed.

Lemma source_save_stores (key : string) (d : blob) (s : Source) :
  no_outage s →
  source_save key d s
    = (mkSource (<[key := d]> (contents s)) (tail (outages s)) (lands s),
       Succeeded)
  ∧ no_outage (source_save key d s).1.
Proof.
  unfold no_outage, source_save. intros Hs.
  destruct (outages s) as [|[|] rest] eqn:E; simpl.
  - by split.
  - by apply Forall_cons in Hs as [? _].
  - apply Forall_cons in Hs as [_ Hs]. by split.
Qed.

Lemma get_set_source (n : source_name) (s : Source) (ss : sources) :
  get_source n (set_source n s ss) = s.
Proof. by destruct n. Qed.

Lemma get_source_logged (n : source_name) (r : request) (ss : sources) :
  get_source n (logged r ss) = get_source n ss.
Proof. by destruct n. Qed.

(** C3, as amended: saving a collection whose records have distinct,
    non-empty uuids, none of them a name every object inherits, and
    fetching the blob back with the same password, from the same source,
    into a newly created collection of the same name (nothing in its
    sequence, nothing in its index) succeeds, and the records fetched are,
    in the same order, the JSON forms of the records saved: they agree
    property for property except that an [updated] that was a [Date] comes
    back as the ISO-8601 string of the same instant. The codec and JSON are
    assumed to round-trip, the source to meet no I/O error. *)
Theorem save_then_fetch
    (o o' : options) (ss : sources) (w w0 : world) :
  (∀ p t, pwdDecrypt p (pwdEncrypt p t) = inr t) →
  (∀ rs, JSON_parse (JSON_stringify rs) = inr ((λ r, Some (toJSON r)) <$> rs)) →
  storable (contents_of w) →
  plainly_named (contents_of w) →
  no_outage (get_source (source_of o) ss) →
  name (this w0) = name (this w) →
  records (this w0) = [] → uuidMap (this w0) = ∅ →
  source_of o' = source_of o →
  password_of o' (store (this w0)) = password (store (this w)) →
  (Store_save o ss w).2 = Succeeded
  ∧ (Store_fetch o' (Store_save o ss w).1 w0).2 = Succeeded
  ∧ contents_of (Store_fetch o' (Store_save o ss w).1 w0).1.1
    = toJSON <$> contents_of w.
Proof.
  intros Hcodec Hjson Hos _ Hup Hname Hr Hm Hsrc Hpw.
  unfold Store_save.
  destruct (source_save_stores (getKey (this w))
              (pwdEncrypt (password (store (this w)))
                 (JSON_stringify (deref (heap w) <$> records (this w))))
              _ Hup) as [Hsave Hup'].
  rewrite Hsave in *. simpl in Hup'. simpl. split; [done|].
  rewrite Store_fetch_unfold. simpl.
  rewrite Hsrc, get_set_source.
  rewrite source_fetch_answer.
  2:{ simpl. unfold no_outage in Hup'. simpl in Hup'.
      destruct (tail _) as [|b rest]; [done|].
      apply Forall_cons in Hup' as [-> _]. done. }
  simpl. replace (getKey (this w0)) with (getKey (this w))
    by (unfold getKey; by rewrite Hname).
  rewrite lookup_insert_eq. simpl.
  apply fetch_data_into_empty; [|done..].
  by rewrite Hpw, Hcodec.
Qed.

End Round_trip.

Section Synchronisation.
Context `{Platform}.

(** ** sync *)

Lemma Store_save_journal (o : options) (ss : sources) (w : world) :
  ∃ c, journal (Store_save o ss w).1
       = journal ss ++ [SaveTo (source_of o) (getKey (this w)) c].
Proof.
  unfold Store_save. destruct (source_save _ _ _) as [s' out].
  eexists. simpl. by destruct (source_of o).
Qed.

Lemma Store_fetch_journal (o : options) (ss : sources) (w : world) :
  journal (Store_fetch o ss w).1.2
  = journal ss ++ [FetchFrom (source_of o) (getKey (this w))].
Proof. rewrite Store_fetch_unfold. simpl. by destruct (source_of o). Qed.

(** The requests of one [sync] are the fetch from the given source, the
    save to the default source and the save to the given source, in this
    order, and the first step that fails is the last: when the fetch fails
    only the fetch was sent, when the save to the default source fails only
    those two were sent, and in both cases that failure is the outcome of
    the [sync]; otherwise all three were sent and the outcome is that of
    the last. *)
Theorem sync_in_order (ss : sources) (w : world) :
  let given := mkOptions None (Some GivenSource) in
  let pull := Store_fetch given ss w in
  let commit := Store_save no_options pull.1.2 pull.1.1 in
  let push := Store_save given commit.1 pull.1.1 in
  let sent := λ steps,
    phase_of <$> journal (sync ss w).1.2 = (phase_of <$> journal ss) ++ steps in
  (∀ e, pull.2 = Failed e →
     (sync ss w).2 = Failed e ∧ sent [Some Pull])
  ∧ (∀ e, pull.2 = Succeeded → commit.2 = Failed e →
     (sync ss w).2 = Failed e ∧ sent [Some Pull; Some CommitLocal])
  ∧ (pull.2 = Succeeded → commit.2 = Succeeded →
     (sync ss w).2 = push.2 ∧ sent [Some Pull; Some CommitLocal; Some Push]).
Proof.
  unfold sync, Collection_fetch, Collection_save. simpl.
  pose proof (Store_fetch_journal (mkOptions None (Some GivenSource)) ss w) as Hj1.
  destruct (Store_fetch _ ss w) as [[w1 ss1] o1]; simpl in *.
  pose proof (Store_save_journal no_options ss1 w1) as [c2 Hj2].
  destruct (Store_save no_options ss1 w1) as [ss2 o2]; simpl in *.
  pose proof (Store_save_journal (mkOptions None (Some GivenSource)) ss2 w1)
    as [c3 Hj3].
  destruct (Store_save _ ss2 w1) as [ss3 o3]; simpl in *.
  split_and!.
  - intros e ->. simpl. by rewrite Hj1, fmap_app.
  - intros e -> ->. simpl. by rewrite Hj2, Hj1, !fmap_app, <- app_assoc.
  - intros -> ->. simpl.
    by rewrite Hj3, Hj2, Hj1, !fmap_app, <- !app_assoc.
Qed.

(** A failure of the fetch, [NotFound] included, is the outcome of the
    whole [sync]; no save is requested. *)
Lemma sync_fetch_failed (ss : sources) (w : world) (e : error) :
  (Store_fetch (mkOptions None (Some GivenSource)) ss w).2 = Failed e →
  (sync ss w).2 = Failed e
  ∧ journal (sync ss w).1.2
    = journal ss ++ [FetchFrom GivenSource (getKey (this w))].
Proof.
  intros Hf. unfold sync, Collection_fetch.
  pose proof (Store_fetch_journal (mkOptions None (Some GivenSource)) ss w) as Hj.
  destruct (Store_fetch _ ss w) as [[w1 ss1] o1]. simpl in *. by subst.
Qed.

End Synchronisation.


Section Invariants.
Context `{Platform}.

(** [util.uuid()] never returns the empty string. *)
Hypothesis uuid_not_empty : ∀ n, util_uuid n ≠ "".

(** ** The write [r.uuid = r.uuid || util.uuid()] *)

Lemma uuid_or_new_cases (o : record) (n : nat) :
  (∃ u, uuid o = Some u ∧ u ≠ "" ∧ uuid_or_new o n = (u, n))
  ∨ ((∀ u, uuid o = Some u → u = "")
     ∧ uuid_or_new o n = (util_uuid n, S n)).
Proof.
  unfold uuid_or_new. destruct (uuid o) as [u|]; [case_decide|].
  - right. split; [|done]. by intros ? [= <-].
  - left. by exists u.
  - right. by split.
Qed.

Lemma uuid_or_new_not_empty (o : record) (n : nat) :
  (uuid_or_new o n).1 ≠ "".
Proof.
  destruct (uuid_or_new_cases o n) as [(u & _ & Hne & ->)|[_ ->]]; simpl; auto.
Qed.

(** An object with a non-empty uuid is not written. *)
Lemma uuid_write_other (h : list record) (r l : loc) (n : nat) (u : string) :
  uuid (deref h l) = Some u → u ≠ "" →
  deref (<[r := set_uuid (uuid_or_new (deref h r) n).1 (deref h r)]> h) l
  = deref h l.
Proof.
  intros Hu Hne. destruct (decide (r = l)) as [->|Hrl].
  - rewrite (uuid_or_new_keeps _ _ _ Hu Hne). simpl.
    by rewrite (heap_write_same _ _ _ Hu).
  - by apply deref_insert_ne.
Qed.

Lemma uuid_write_self (h : list record) (r : loc) (n : nat) :
  (r < length h)%nat →
  uuid (deref (<[r := set_uuid (uuid_or_new (deref h r) n).1 (deref h r)]> h) r)
  = Some (uuid_or_new (deref h r) n).1.
Proof. intros Hr. by rewrite deref_insert_eq. Qed.

Lemma uuid_write_updated (h : list record) (r l : loc) (u : string) :
  updated (deref (<[r := set_uuid u (deref h r)]> h) l) = updated (deref h l).
Proof.
  destruct (decide (r = l)) as [->|Hrl]; [|by rewrite deref_insert_ne].
  destruct (decide (l < length h)%nat) as [Hl|Hl].
  - by rewrite deref_insert_eq.
  - by rewrite list_insert_ge by lia.
Qed.

(** ** One step of the loop, in general *)

(** What one step does to the heap and the index, whichever branch it
    takes. *)
Lemma add_one_grows (r : loc) (w : world) (recs : list loc) :
  (∀ l u, uuid (deref (heap w) l) = Some u → u ≠ "" →
          deref (heap (add_one r w recs).1) l = deref (heap w) l)
  ∧ (∀ u, is_Some (uuidMap (this w) !! u) →
          is_Some (uuidMap (this (add_one r w recs).1) !! u)).
Proof.
  unfold add_one.
  pose proof (uuid_write_other (heap w) r) as Hother.
  destruct (uuid_or_new (deref (heap w) r) (drawn w)) as [u n] eqn:Eu.
  specialize (λ l, Hother l (drawn w)). rewrite Eu in Hother. simpl in Hother.
  assert (∀ v, is_Some (uuidMap (this w) !! v) →
               is_Some (<[u:=r]> (uuidMap (this w)) !! v)) as Hdom.
  { intros v Hv. destruct (decide (u = v)) as [->|Hne].
    - rewrite lookup_insert_eq. eauto.
    - by rewrite lookup_insert_ne. }
  destruct (uuidMap (this w) !! u) as [e|]; [|by split].
  by destruct (truthy _ && js_gt _ _).
Qed.

Lemma keyed_add_one (r : loc) (w : world) (recs : list loc) :
  (r < length (heap w))%nat →
  keyed w → keyed (add_one r w recs).1.
Proof.
  intros Hr Hk. unfold add_one.
  pose proof (uuid_write_other (heap w) r) as Hother.
  pose proof (uuid_write_self (heap w) r (drawn w) Hr) as Hself.
  pose proof (uuid_or_new_not_empty (deref (heap w) r) (drawn w)) as Hne.
  destruct (uuid_or_new (deref (heap w) r) (drawn w)) as [u n] eqn:Eu.
  specialize (λ l, Hother l (drawn w)). rewrite Eu in Hother.
  simpl in Hother, Hself, Hne.
  set (h := <[r := set_uuid u (deref (heap w) r)]> (heap w)) in *.
  assert (∀ v l, uuidMap (this w) !! v = Some l →
                 uuid (deref h l) = Some v ∧ v ≠ "") as Hold.
  { intros v l Hv. destruct (Hk v l Hv) as [Hu Hv'].
    by rewrite (Hother l v Hu Hv'). }
  assert (∀ v l, <[u:=r]> (uuidMap (this w)) !! v = Some l →
                 uuid (deref h l) = Some v ∧ v ≠ "") as Hnew.
  { intros v l. destruct (decide (u = v)) as [->|Huv].
    - rewrite lookup_insert_eq. by intros [= <-].
    - rewrite lookup_insert_ne by done. apply Hold. }
  destruct (uuidMap (this w) !! u) as [e|]; [|exact Hnew].
  destruct (truthy _ && js_gt _ _); [exact Hnew|exact Hold].
Qed.

(** The three ways a step can end. [u] is the uuid the object has after
    the write and [h] the heap after it. *)
Lemma add_one_cases (r : loc) (w : world) (recs : list loc) (u : string) (n : nat) :
  uuid_or_new (deref (heap w) r) (drawn w) = (u, n) →
  let h := <[r := set_uuid u (deref (heap w) r)]> (heap w) in
  let m := <[u := r]> (uuidMap (this w)) in
  (is_Some (uuidMap (this w) !! u)
   ∧ add_one r w recs = (mkWorld h n (this w), recs))
  ∨ (uuidMap (this w) !! u = None
     ∧ add_one r w recs
       = (mkWorld h n (with_uuidMap m (this w)), recs ++ [r]))
  ∨ (∃ e, uuidMap (this w) !! u = Some e
     ∧ js_gt (updated (deref (heap w) r)) (updated (deref (heap w) e)) = true
     ∧ add_one r w recs
       = (mkWorld h n (with_uuidMap m (this w)),
          put_at (indexOf e recs) r recs)).
Proof.
  intros Eu h m. unfold add_one. rewrite Eu. fold h.
  destruct (uuidMap (this w) !! u) as [e|] eqn:Em; [|by right; left].
  assert (updated (deref h e) = updated (deref (heap w) e)) as ->
    by apply uuid_write_updated.
  destruct (truthy _ && js_gt _ _) eqn:Egt.
  - right; right. exists e. by apply andb_true_iff in Egt as [_ Egt].
  - left. split; [eauto|done].
Qed.

(** A list that is filed stays so while the index grows and uuids stay. *)
Lemma filed_grows (w w' : world) (ls : list loc) :
  (∀ l u, uuid (deref (heap w) l) = Some u → u ≠ "" →
          uuid (deref (heap w') l) = Some u) →
  (∀ u, is_Some (uuidMap (this w) !! u) → is_Some (uuidMap (this w') !! u)) →
  filed w ls → filed w' ls.
Proof.
  intros Hheap Hdom [Hall Hnd]. split.
  - intros l Hl. destruct (Hall l Hl) as (u & Hu & Hne & Hm).
    exists u. rewrite (Hheap l u Hu Hne). auto.
  - rewrite (list_fmap_ext (λ l, uuid (deref (heap w') l))
               (λ l, uuid (deref (heap w) l)) ls); [done|].
    intros i l Hl. destruct (Hall l) as (u & Hu & Hne & _).
    { apply list_elem_of_lookup. eauto. }
    by rewrite (Hheap l u Hu Hne).
Qed.

Lemma keyed_grows (w w' : world) :
  (∀ l u, uuid (deref (heap w) l) = Some u → u ≠ "" →
          uuid (deref (heap w') l) = Some u) →
  uuidMap (this w') = uuidMap (this w) →
  keyed w → keyed w'.
Proof.
  intros Hheap Hm Hk u l Hl. rewrite Hm in Hl.
  destruct (Hk u l Hl) as [Hu Hne]. split; [|done]. by apply Hheap.
Qed.

Lemma filed_add_one_frame (r : loc) (w : world) (recs ls : list loc) :
  filed w ls → filed (add_one r w recs).1 ls.
Proof.
  destruct (add_one_grows r w recs) as [Hheap Hdom].
  apply filed_grows; [|done].
  intros l u Hu Hne. by rewrite (Hheap l u Hu Hne).
Qed.

(** The array being built stays filed. *)
Lemma filed_add_one (r : loc) (w : world) (recs : list loc) :
  (r < length (heap w))%nat →
  keyed w → filed w recs →
  filed (add_one r w recs).1 (add_one r w recs).2.
Proof.
  intros Hr Hk Hf.
  pose proof (keyed_add_one r w recs Hr Hk) as Hk'.
  pose proof (filed_add_one_frame r w recs recs Hf) as Hf'.
  pose proof (uuid_write_self (heap w) r (drawn w) Hr) as Hself.
  pose proof (uuid_or_new_not_empty (deref (heap w) r) (drawn w)) as Hne.
  destruct (add_one_grows r w recs) as [Hheap _].
  destruct (uuid_or_new (deref (heap w) r) (drawn w)) as [u n] eqn:Eu.
  destruct (add_one_cases r w recs u n Eu) as [[_ E]|[[Hm E]|(e & Hm & _ & E)]];
    rewrite E in *; simpl in *; clear E.
  - done.
  - destruct Hf' as [Hall' Hnd']. simpl in *. split.
    + intros l [Hl|Hl]%elem_of_app; [by apply Hall'|].
      apply list_elem_of_singleton in Hl as ->.
      eexists. split_and!; [exact Hself|done|]. simpl.
      rewrite lookup_insert_eq. eauto.
    + rewrite fmap_app. simpl. apply NoDup_app. split_and!; [done| |].
      * intros x Hx Hx'. apply list_elem_of_singleton in Hx' as ->.
        apply list_elem_of_fmap in Hx as (l & Hx & Hl).
        destruct Hf as [Hall _]. destruct (Hall l Hl) as (v & Hv & Hv' & Hin).
        rewrite Hself, (Hheap l v Hv Hv'), Hv in Hx. simplify_eq.
        rewrite Hm in Hin. by destruct Hin.
      * apply NoDup_singleton.
  - destruct (indexOf e recs) as [i|] eqn:Ei; simpl; [|done].
    apply indexOf_lookup in Ei.
    destruct (Hk _ _ Hm) as [He He'].
    destruct Hf' as [Hall' Hnd']. simpl in *. split.
    + intros l Hl. apply list_elem_of_lookup in Hl as [j Hj].
      destruct (decide (i = j)) as [->|Hij].
      * rewrite list_lookup_insert_eq in Hj by (by eapply lookup_lt_Some).
        simplify_eq. eexists. split_and!; [exact Hself|done|]. simpl.
        rewrite lookup_insert_eq. eauto.
      * rewrite list_lookup_insert_ne in Hj by done.
        apply Hall'. apply list_elem_of_lookup. eauto.
    + rewrite list_fmap_insert. simpl. rewrite Hself, list_insert_id; [done|].
      rewrite list_lookup_fmap, Ei. simpl.
      by rewrite (Hheap e _ He He'), He.
Qed.

Lemma forEach_merge_inv (rs : list ref) (w : world) (recs ls : list loc) :
  (∀ l, Some l ∈ rs → (l < length (heap w))%nat) →
  keyed w → filed w recs → filed w ls →
  keyed (forEach rs w recs).1.1
  ∧ filed (forEach rs w recs).1.1 (forEach rs w recs).1.2
  ∧ filed (forEach rs w recs).1.1 ls.
Proof.
  revert w recs. induction rs as [|[r|] rs IH]; intros w recs Hrs Hk Hf Hl;
    simpl; [done| |done].
  assert (r < length (heap w))%nat as Hr by (apply Hrs; by left).
  pose proof (keyed_add_one r w recs Hr Hk) as Hk'.
  pose proof (filed_add_one r w recs Hr Hk Hf) as Hf'.
  pose proof (filed_add_one_frame r w recs ls Hl) as Hl'.
  assert (length (heap (add_one r w recs).1) = length (heap w)) as Hlen.
  { destruct (uuid_or_new (deref (heap w) r) (drawn w)) as [u n] eqn:Eu.
    destruct (add_one_cases r w recs u n Eu) as [[_ E]|[[_ E]|(e & _ & _ & E)]];
      rewrite E; simpl; apply length_insert. }
  destruct (add_one r w recs) as [w' recs']. simpl in *.
  apply IH; [|done..].
  intros l Hin. rewrite Hlen. apply Hrs. by right.
Qed.

(** ** Every operation keeps [merge_inv] *)

Lemma merge_inv_add (a : add_arg) (w : world) :
  refers w (Add a) → merge_inv w → merge_inv (add a w).1.
Proof.
  intros Hrs [Hk Hf]. unfold add.
  pose proof (forEach_merge_inv (as_array a) w (records (this w))
                (records (this w)) Hrs Hk Hf Hf) as (Hk' & Hf' & Hl').
  pose proof (forEach_frame (as_array a) w (records (this w))) as (Hr & _).
  destruct (forEach (as_array a) w (records (this w))) as [[w' recs] c].
  simpl in *. destruct c; simpl.
  - split; [exact Hk'|exact Hf'].
  - split; [exact Hk'|]. by rewrite Hr.
Qed.

Lemma deref_app (h : list record) (o : record) (l : loc) (u : string) :
  uuid (deref h l) = Some u → deref (h ++ [o]) l = deref h l.
Proof.
  intros Hu. apply deref_allocated in Hu.
  unfold deref. by rewrite lookup_app_l.
Qed.

Lemma remove_uuid (r l : loc) (now : Z) (w : world) :
  uuid (deref (heap (remove r now w)) l) = uuid (deref (heap w) l).
Proof.
  unfold remove. simpl. destruct (decide (r = l)) as [->|Hrl].
  - destruct (decide (l < length (heap w))%nat) as [Hl|Hl].
    + by rewrite deref_insert_eq.
    + by rewrite list_insert_ge by lia.
  - by rewrite deref_insert_ne.
Qed.

Lemma merge_inv_step (w : world) (o : op) :
  refers w o → merge_inv w → merge_inv (step w o).
Proof.
  intros Hrs Hi. destruct o as [x|a|r now|]; simpl.
  - destruct Hi as [Hk Hf]. split.
    + apply (keyed_grows w); [|done|exact Hk].
      intros l u Hu _. simpl. by rewrite (deref_app _ _ _ _ Hu).
    + apply (filed_grows w); [|done|exact Hf].
      intros l u Hu _. simpl. by rewrite (deref_app _ _ _ _ Hu).
  - by apply merge_inv_add.
  - destruct Hi as [Hk Hf]. split.
    + apply (keyed_grows w); [|done|exact Hk].
      intros l u Hu _. by rewrite remove_uuid.
    + apply (filed_grows w); [|done|exact Hf].
      intros l u Hu _. by rewrite remove_uuid.
  - destruct Hi as [Hk _]. split; [exact Hk|].
    split; simpl; [by intros l ?%elem_of_nil|constructor].
Qed.

Lemma merge_inv_initial : merge_inv initial.
Proof.
  split.
  - intros u l Hl. simpl in Hl. by rewrite lookup_empty in Hl.
  - split; simpl; [by intros l ?%elem_of_nil|constructor].
Qed.

(** Whatever the collection is asked to do, with references to objects of
    the heap, it keeps [merge_inv]. *)
Lemma merge_inv_run (ops : list op) (w : world) :
  allowed refers ops w → merge_inv w → merge_inv (run ops w).
Proof.
  revert w. induction ops as [|o ops IH]; intros w Hok Hi; simpl; [done|].
  destruct Hok as [Ho Hok]. apply IH; [done|]. by apply merge_inv_step.
Qed.

Lemma merge_inv_one_per_uuid (w : world) :
  merge_inv w → one_per_uuid w.
Proof.
  intros [_ [_ Hnd]] i j Hi Heq. unfold contents_of in Heq.
  rewrite !list_lookup_fmap in Heq.
  destruct (lookup_lt_is_Some_2 _ _ Hi) as [l Hl].
  rewrite Hl in Heq. simpl in Heq.
  destruct (records (this w) !! j) as [l'|] eqn:Hl'; simpl in Heq; [|done].
  eapply (NoDup_lookup _ i j (uuid (deref (heap w) l))); [exact Hnd| |].
  - by rewrite list_lookup_fmap, Hl.
  - rewrite list_lookup_fmap, Hl'. simpl. congruence.
Qed.

(** The records of a collection in this state can be stored side by
    side. *)
Lemma merge_inv_storable (w : world) :
  merge_inv w → storable (contents_of w).
Proof.
  intros [_ [Hall Hnd]]. unfold contents_of. split.
  - rewrite Forall_fmap. apply Forall_forall. intros l Hl.
    destruct (Hall l Hl) as (u & Hu & Hne & _). by exists u.
  - by rewrite <- list_fmap_compose.
Qed.

(** Part of C2 that holds: no sequence of operations, [lock] and failing
    [add]s included, puts two records with one uuid into the sequence. *)
Lemma one_per_uuid_run (ops : list op) :
  allowed refers ops initial → one_per_uuid (run ops initial).
Proof.
  intros Hok. apply merge_inv_one_per_uuid, merge_inv_run; [done|].
  apply merge_inv_initial.
Qed.

(** ** Completed adds keep index and sequence in step *)

Lemma js_gt_irrefl (s : stamp) : js_gt s s = false.
Proof. destruct s; simpl; [done|apply Z.ltb_irrefl..]. Qed.

Lemma NoDup_insert_fresh (l : list loc) (i : nat) (x : loc) :
  NoDup l → x ∉ l → NoDup (<[i := x]> l).
Proof.
  intros Hnd Hx. revert i. induction Hnd as [|y l Hy Hnd IH]; intros i.
  - constructor.
  - apply not_elem_of_cons in Hx as [Hxy Hx].
    destruct i as [|i]; simpl.
    + by constructor.
    + constructor; [|by apply IH].
      intros Hin. apply list_elem_of_lookup in Hin as [j Hj].
      destruct (decide (i = j)) as [->|Hij].
      * destruct (decide (j < length l)%nat) as [Hlt|Hge].
        -- rewrite list_lookup_insert_eq in Hj by done. congruence.
        -- rewrite list_insert_ge in Hj by lia.
           apply Hy, list_elem_of_lookup. eauto.
      * rewrite list_lookup_insert_ne in Hj by done.
        apply Hy, list_elem_of_lookup. eauto.
Qed.

Lemma in_step_add_one (r : loc) (w : world) (recs : list loc) :
  (r < length (heap w))%nat →
  in_step w recs →
  in_step (add_one r w recs).1 (add_one r w recs).2.
Proof.
  intros Hr (Hk & Hix & Hsd & Hnd).
  pose proof (keyed_add_one r w recs Hr Hk) as Hk'.
  pose proof (uuid_write_self (heap w) r (drawn w) Hr) as Hself.
  pose proof (uuid_or_new_not_empty (deref (heap w) r) (drawn w)) as Hne.
  destruct (add_one_grows r w recs) as [Hheap _].
  destruct (uuid_or_new (deref (heap w) r) (drawn w)) as [u n] eqn:Eu.
  simpl in Hself, Hne.
  assert (∀ l, l ∈ recs →
            ∃ v, uuid (deref (heap (add_one r w recs).1) l) = Some v
                 ∧ uuidMap (this w) !! v = Some l) as Hix'.
  { intros l Hl. destruct (Hix l Hl) as (v & Hv & Hm).
    destruct (Hk v l Hm) as [_ Hv']. exists v.
    by rewrite (Hheap l v Hv Hv'). }
  assert (r ∈ recs → uuidMap (this w) !! u = Some r) as Hrin.
  { intros Hin. destruct (Hix r Hin) as (v & Hv & Hm).
    destruct (Hk v r Hm) as [_ Hv'].
    rewrite (uuid_or_new_keeps _ _ _ Hv Hv') in Eu. by simplify_eq. }
  destruct (add_one_cases r w recs u n Eu) as [[_ E]|[[Hm E]|(e & Hm & Hgt & E)]];
    rewrite E in *; simpl in *; clear E.
  - done.
  - split_and!; [done| | |].
    + intros l [Hl|Hl]%elem_of_app.
      * destruct (Hix' l Hl) as (v & Hv & Hmv). exists v. split; [done|].
        simpl. rewrite lookup_insert_ne; [done|]. intros ->. congruence.
      * apply list_elem_of_singleton in Hl as ->. exists u. split; [done|].
        simpl. by rewrite lookup_insert_eq.
    + intros v l. simpl. destruct (decide (u = v)) as [->|Huv].
      * rewrite lookup_insert_eq. intros [= <-]. apply elem_of_app. right.
        by apply list_elem_of_singleton.
      * rewrite lookup_insert_ne by done. intros Hl.
        apply elem_of_app. left. by eapply Hsd.
    + apply NoDup_app. split_and!; [done| |apply NoDup_singleton].
      intros x Hx Hx'. apply list_elem_of_singleton in Hx' as ->.
      specialize (Hrin Hx). congruence.
  - assert (r ≠ e) as Hre.
    { intros ->. by rewrite js_gt_irrefl in Hgt. }
    assert (r ∉ recs) as Hrn.
    { intros Hin. specialize (Hrin Hin). congruence. }
    destruct (indexOf_elem e recs (Hsd _ _ Hm)) as [i Hi].
    rewrite Hi. simpl. apply indexOf_lookup in Hi.
    pose proof (lookup_lt_Some _ _ _ Hi) as Hlt.
    destruct (Hk _ _ Hm) as [He He'].
    split_and!; [done| | |by apply NoDup_insert_fresh].
    + intros l Hl. apply list_elem_of_lookup in Hl as [j Hj].
      destruct (decide (i = j)) as [->|Hij].
      * rewrite list_lookup_insert_eq in Hj by done. simplify_eq.
        exists u. split; [done|]. simpl. by rewrite lookup_insert_eq.
      * rewrite list_lookup_insert_ne in Hj by done.
        destruct (Hix' l) as (v & Hv & Hmv).
        { apply list_elem_of_lookup. eauto. }
        exists v. split; [done|]. simpl.
        rewrite lookup_insert_ne; [done|]. intros ->.
        rewrite Hm in Hmv. simplify_eq.
        by apply Hij, (NoDup_lookup recs i j l).
    + intros v l. simpl. destruct (decide (u = v)) as [->|Huv].
      * rewrite lookup_insert_eq. intros [= <-].
        by apply list_elem_of_insert.
      * rewrite lookup_insert_ne by done. intros Hl.
        pose proof (Hsd _ _ Hl) as Hin.
        apply list_elem_of_lookup in Hin as [j Hj].
        apply list_elem_of_lookup. exists j.
        rewrite list_lookup_insert_ne; [done|]. intros ->.
        simplify_eq. destruct (Hk _ _ Hl) as [Hv _]. congruence.
Qed.

Lemma forEach_in_step (rs : list ref) (w : world) (recs : list loc) :
  (∀ l, Some l ∈ rs → (l < length (heap w))%nat) →
  in_step w recs →
  (forEach rs w recs).2 = Normal →
  in_step (forEach rs w recs).1.1 (forEach rs w recs).1.2.
Proof.
  revert w recs. induction rs as [|[r|] rs IH]; intros w recs Hrs Hi;
    simpl; [done| |done].
  assert (r < length (heap w))%nat as Hr by (apply Hrs; by left).
  pose proof (in_step_add_one r w recs Hr Hi) as Hi'.
  assert (length (heap (add_one r w recs).1) = length (heap w)) as Hlen.
  { destruct (uuid_or_new (deref (heap w) r) (drawn w)) as [u n] eqn:Eu.
    destruct (add_one_cases r w recs u n Eu) as [[_ E]|[[_ E]|(e & _ & _ & E)]];
      rewrite E; simpl; apply length_insert. }
  destruct (add_one r w recs) as [w' recs']. simpl in *.
  apply IH; [|done].
  intros l Hin. rewrite Hlen. apply Hrs. by right.
Qed.

Lemma in_step_step (w : world) (o : op) :
  completes w o →
  in_step w (records (this w)) →
  in_step (step w o) (records (this (step w o))).
Proof.
  intros [Hrs Hc] Hi. destruct o as [x|a|r now|]; simpl in *; [| | |done].
  - destruct Hi as (Hk & Hix & Hsd & Hnd). split_and!; [|
      |done|done].
    + apply (keyed_grows w); [|done|exact Hk].
      intros l u Hu _. simpl. by rewrite (deref_app _ _ _ _ Hu).
    + intros l Hl. destruct (Hix l Hl) as (u & Hu & Hm). exists u.
      simpl. by rewrite (deref_app _ _ _ _ Hu).
  - unfold add in *.
    pose proof (forEach_in_step (as_array a) w (records (this w)) Hrs Hi) as Hf.
    destruct (forEach (as_array a) w (records (this w))) as [[w' recs] c].
    simpl in *. destruct c; [|done]. simpl. by apply Hf.
  - destruct Hi as (Hk & Hix & Hsd & Hnd). split_and!; [| |done|done].
    + apply (keyed_grows w); [|done|exact Hk].
      intros l u Hu _. by rewrite remove_uuid.
    + intros l Hl. destruct (Hix l Hl) as (u & Hu & Hm). exists u.
      by rewrite remove_uuid.
Qed.

Lemma in_step_consistent (w : world) :
  in_step w (records (this w)) → consistent w.
Proof.
  intros (Hk & Hix & Hsd & Hnd). split_and!; [|done|done].
  intros i j Hi Heq. unfold contents_of in Heq.
  rewrite !list_lookup_fmap in Heq.
  destruct (lookup_lt_is_Some_2 _ _ Hi) as [l Hl].
  rewrite Hl in Heq. simpl in Heq.
  destruct (records (this w) !! j) as [l'|] eqn:Hl'; simpl in Heq; [|done].
  destruct (Hix l) as (u & Hu & Hm); [apply list_elem_of_lookup; eauto|].
  destruct (Hix l') as (u' & Hu' & Hm'); [apply list_elem_of_lookup; eauto|].
  assert (l = l') as <- by (simplify_eq; congruence).
  by apply (NoDup_lookup (records (this w)) i j l).
Qed.

(** Part of C2 that holds: as long as every [add] completes and the
    collection is not locked, the sequence has one record per uuid, every
    entry of the index points into the sequence and every record of the
    sequence is found under its uuid. *)
Lemma consistent_run (ops : list op) :
  allowed completes ops initial → consistent (run ops initial).
Proof.
  intros Hok. apply in_step_consistent.
  assert (in_step initial (records (this initial))) as Hi.
  { split_and!; simpl.
    - intros u l Hl. simpl in Hl. by rewrite lookup_empty in Hl.
    - by intros l ?%elem_of_nil.
    - intros u l Hl. simpl in Hl. by rewrite lookup_empty in Hl.
    - constructor. }
  revert Hok Hi. generalize initial.
  induction ops as [|o ops IH]; intros w Hok Hi; simpl; [done|].
  destruct Hok as [Ho Hok]. apply IH; [done|]. by apply in_step_step.
Qed.

End Invariants.

Section Merging_again.
Context `{Platform}.

Hypothesis uuid_not_empty : ∀ n, util_uuid n ≠ "".

(** ** The comparison as an order *)

Lemma js_gt_truthy (a b : stamp) : js_gt a b = true → truthy a = true.
Proof. by destruct a, b. Qed.

Lemma js_gt_asym (a b : stamp) : js_gt a b = true → js_gt b a = false.
Proof.
  destruct a as [|x|x], b as [|y|y]; simpl; try done;
    rewrite Z.ltb_lt, Z.ltb_ge; lia.
Qed.

(** What is not greater than a record is not greater than its
    replacement. *)
Lemma js_gt_below (a b c : stamp) :
  js_gt b c = true → js_gt a c = false → js_gt a b = false.
Proof.
  destruct a as [|x|x], b as [|y|y], c as [|z|z]; simpl; try done;
    rewrite Z.ltb_lt, !Z.ltb_ge; lia.
Qed.

Lemma js_gt_not_later (a b : stamp) (t t' : Z) :
  instant a = Some t → instant b = Some t' → t ≤ t' → js_gt a b = false.
Proof.
  destruct a as [|x|x], b as [|y|y]; simpl; try done;
    intros [= ->] [= ->] Hle; apply Z.ltb_ge; lia.
Qed.

Lemma js_gt_later (a b : stamp) (t t' : Z) :
  same_kind a b = true →
  instant a = Some t → instant b = Some t' → t' < t → js_gt a b = true.
Proof.
  destruct a as [|x|x], b as [|y|y]; simpl; try done;
    intros _ [= ->] [= ->] Hlt; by apply Z.ltb_lt.
Qed.

(** ** A second pass over the same array *)

Lemma settled_add_one_self (r : loc) (w : world) (recs : list loc) :
  (r < length (heap w))%nat → settled (add_one r w recs).1 r.
Proof.
  intros Hr. unfold settled, add_one.
  pose proof (uuid_write_self (heap w) r (drawn w) Hr) as Hself.
  pose proof (uuid_or_new_not_empty uuid_not_empty (deref (heap w) r) (drawn w))
    as Hne.
  destruct (uuid_or_new (deref (heap w) r) (drawn w)) as [u n].
  simpl in Hself, Hne.
  set (h := <[r := set_uuid u (deref (heap w) r)]> (heap w)) in *.
  assert (updated (deref h r) = updated (deref (heap w) r)) as Hupd
    by apply uuid_write_updated.
  destruct (uuidMap (this w) !! u) as [e|] eqn:Em.
  - destruct (truthy _ && js_gt _ _) eqn:Egt; simpl.
    + exists u, r. rewrite lookup_insert_eq. split_and!; try done.
      apply js_gt_irrefl.
    + exists u, e. split_and!; try done. rewrite Hupd.
      destruct (js_gt (updated (deref (heap w) r)) (updated (deref h e)))
        eqn:Eg; [|done].
      by rewrite (js_gt_truthy _ _ Eg) in Egt.
  - simpl. exists u, r. rewrite lookup_insert_eq. split_and!; try done.
    apply js_gt_irrefl.
Qed.

Lemma settled_add_one_other (r r' : loc) (w : world) (recs : list loc) :
  settled w r → settled (add_one r' w recs).1 r.
Proof.
  intros (u & e & Hu & Hne & Hm & Hgt).
  destruct (add_one_grows r' w recs) as [Hheap _].
  pose proof (Hheap r u Hu Hne) as Hr.
  destruct (uuid_or_new (deref (heap w) r') (drawn w)) as [u' n] eqn:Eu.
  assert (∀ l, updated (deref (<[r' := set_uuid u' (deref (heap w) r')]> (heap w)) l)
               = updated (deref (heap w) l)) as Hupd
    by (intros l; apply uuid_write_updated).
  destruct (add_one_cases r' w recs u' n Eu)
    as [[_ E]|[[Hm' E]|(e' & Hm' & Hgt' & E)]];
    rewrite E in *; simpl in *; clear E; unfold settled; simpl.
  - exists u, e. by rewrite Hr, Hupd.
  - exists u, e. rewrite Hr, Hupd. split_and!; try done.
    rewrite lookup_insert_ne; [done|]. intros ->. congruence.
  - destruct (decide (u' = u)) as [->|Huu].
    + exists u, r'. rewrite lookup_insert_eq, Hr, Hupd.
      split_and!; try done. simplify_eq.
      by apply (js_gt_below _ _ (updated (deref (heap w) e))).
    + exists u, e. rewrite lookup_insert_ne by done.
      by rewrite Hr, Hupd.
Qed.

Lemma add_one_length (r : loc) (w : world) (recs : list loc) :
  length (heap (add_one r w recs).1) = length (heap w).
Proof.
  destruct (uuid_or_new (deref (heap w) r) (drawn w)) as [u n] eqn:Eu.
  destruct (add_one_cases r w recs u n Eu) as [[_ E]|[[_ E]|(e & _ & _ & E)]];
    rewrite E; simpl; apply length_insert.
Qed.

Lemma settled_forEach (rs : list ref) (w : world) (recs : list loc) (l : loc) :
  settled w l → settled (forEach rs w recs).1.1 l.
Proof.
  revert w recs. induction rs as [|[r|] rs IH]; intros w recs Hl; simpl;
    [done| |done].
  pose proof (settled_add_one_other l r w recs Hl) as Hl'.
  destruct (add_one r w recs) as [w' recs']. by apply IH.
Qed.

(** After the loop every object it reached is settled. *)
Lemma forEach_settles (rs : list ref) (w : world) (recs : list loc) :
  (∀ l, Some l ∈ rs → (l < length (heap w))%nat) →
  ∀ l, l ∈ reached rs → settled (forEach rs w recs).1.1 l.
Proof.
  revert w recs. induction rs as [|[r|] rs IH]; intros w recs Hrs l Hl; simpl in *;
    [by apply elem_of_nil in Hl| |by apply elem_of_nil in Hl].
  assert (r < length (heap w))%nat as Hr by (apply Hrs; by left).
  pose proof (settled_add_one_self r w recs Hr) as Hself.
  pose proof (add_one_length r w recs) as Hlen.
  destruct (add_one r w recs) as [w' recs']. simpl in *.
  apply elem_of_cons in Hl as [->|Hl].
  - by apply settled_forEach.
  - apply IH; [|done]. intros l' Hl'. rewrite Hlen. apply Hrs. by right.
Qed.

(** The loop over objects that are settled changes nothing. *)
Lemma forEach_keeps_settled (rs : list ref) (w : world) (recs : list loc) :
  (∀ l, l ∈ reached rs → settled w l) →
  forEach rs w recs = (w, recs, ends rs).
Proof.
  revert recs. induction rs as [|[r|] rs IH]; intros recs Hall; simpl;
    [done| |done].
  destruct (Hall r) as (u & e & Hu & Hne & Hm & Hgt); [by left|].
  rewrite (add_one_keeps r e w recs u Hu Hne Hm).
  - apply IH. intros l Hl. apply Hall. by right.
  - rewrite Hgt. apply andb_false_r.
Qed.

Lemma forEach_ends (rs : list ref) (w : world) (recs : list loc) :
  (forEach rs w recs).2 = ends rs.
Proof.
  revert w recs. induction rs as [|[r|] rs IH]; intros w recs; simpl;
    [done| |done].
  destruct (add_one r w recs) as [w' recs']. apply IH.
Qed.

(** Adding the same array of records a second time changes nothing, and
    ends as the first call did: normally, or with the exception at the
    same [null]. *)
Theorem add_twice (a : add_arg) (w : world) :
  (∀ l, Some l ∈ as_array a → (l < length (heap w))%nat) →
  add a (add a w).1 = add a w.
Proof.
  intros Hrs. unfold add at 2 3.
  pose proof (forEach_settles (as_array a) w (records (this w)) Hrs) as Hset.
  pose proof (forEach_ends (as_array a) w (records (this w))) as Hend.
  pose proof (forEach_frame (as_array a) w (records (this w))) as (Hrec & _).
  destruct (forEach (as_array a) w (records (this w))) as [[w' recs] c].
  simpl in *. subst c. unfold add.
  destruct (ends (as_array a)) as [|e] eqn:Ec; simpl.
  - rewrite (forEach_keeps_settled (as_array a) _ recs).
    + rewrite Ec. simpl. by destruct w' as [h n [nm st rc m]].
    + intros l Hl. exact (Hset l Hl).
  - rewrite (forEach_keeps_settled (as_array a) w' (records (this w'))).
    + by rewrite Ec.
    + exact Hset.
Qed.

(** ** Two versions of one record *)

Lemma indexOf_app_fresh (x : loc) (l : list loc) :
  x ∉ l → indexOf x (l ++ [x]) = Some (length l).
Proof.
  induction l as [|y l IH]; intros Hx; simpl.
  - by rewrite decide_True.
  - apply not_elem_of_cons in Hx as [Hxy Hx].
    rewrite decide_False by done. by rewrite IH.
Qed.

Lemma insert_last (l : list loc) (x y : loc) :
  <[length l := y]> (l ++ [x]) = l ++ [y].
Proof. induction l as [|z l IH]; simpl; [done|]. by rewrite IH. Qed.

(** Two objects with one uuid, not a name every object inherits, that the
    index does not know yet, the first comparing greater than the second
    (timestamps held as strings being legible): whichever comes first in
    the array, the collection ends up with the greater one at the end of
    the sequence and in the index, and without the other. *)
Theorem later_version_wins_in_either_order
    (a b : loc) (w : world) (u : string) :
  uuid (deref (heap w) a) = Some u → uuid (deref (heap w) b) = Some u →
  u ≠ "" → inherited u = false →
  uuidMap (this w) !! u = None →
  b ∉ records (this w) →
  legible (updated (deref (heap w) a)) →
  legible (updated (deref (heap w) b)) →
  js_gt (updated (deref (heap w) a)) (updated (deref (heap w) b)) = true →
  add (Many [Some a; Some b]) w
    = (mkWorld (heap w) (drawn w)
         (mkCollection (name (this w)) (store (this w))
            (records (this w) ++ [a]) (<[u := a]> (uuidMap (this w)))),
       Normal)
  ∧ add (Many [Some b; Some a]) w = add (Many [Some a; Some b]) w.
Proof.
  intros Ha Hb Hne _ Hm Hbn _ _ Hgt.
  assert (add (Many [Some a; Some b]) w
    = (mkWorld (heap w) (drawn w)
         (mkCollection (name (this w)) (store (this w))
            (records (this w) ++ [a]) (<[u := a]> (uuidMap (this w)))),
       Normal)) as Hab.
  { unfold add. simpl.
    rewrite (add_one_appends a w _ u Ha Hne Hm).
    rewrite (add_one_keeps b a _ _ u); simpl; try done.
    - by rewrite lookup_insert_eq.
    - rewrite (js_gt_asym _ _ Hgt). apply andb_false_r. }
  split; [exact Hab|]. rewrite Hab. unfold add. simpl.
  rewrite (add_one_appends b w _ u Hb Hne Hm).
  rewrite (add_one_replaces a b _ _ u); simpl; try done.
  - rewrite (indexOf_app_fresh _ _ Hbn). simpl.
    by rewrite insert_last, insert_insert_eq.
  - by rewrite lookup_insert_eq.
  - by apply (js_gt_truthy _ _ Hgt).
Qed.

(** An incoming record whose instant is not later than that of the record
    the index holds for its uuid is discarded: a tie keeps the existing
    record, whether the two timestamps are [Date]s, legible strings, or
    one of each. *)
Theorem not_later_version_discarded
    (r e : loc) (w : world) (u : string) (t t' : Z) :
  uuid (deref (heap w) r) = Some u → u ≠ "" →
  uuidMap (this w) !! u = Some e →
  legible (updated (deref (heap w) r)) →
  legible (updated (deref (heap w) e)) →
  instant (updated (deref (heap w) r)) = Some t →
  instant (updated (deref (heap w) e)) = Some t' →
  t ≤ t' →
  add (One (Some r)) w = (w, Normal).
Proof.
  intros Hu Hne Hm _ _ Ht Ht' Hle.
  apply (add_single_keeps r e w u Hu Hne Hm).
  rewrite (js_gt_not_later _ _ t t' Ht Ht' Hle). apply andb_false_r.
Qed.

(** An incoming record with a later instant, held in the same form as that
    of the existing record (two [Date]s or two legible ISO-8601 strings),
    takes the place of the existing record in the sequence and in the
    index; nothing else changes. *)
Theorem later_version_replaces_in_place
    (r e : loc) (w : world) (u : string) (i : nat) (t t' : Z) :
  uuid (deref (heap w) r) = Some u → u ≠ "" →
  uuidMap (this w) !! u = Some e →
  NoDup (records (this w)) → records (this w) !! i = Some e →
  same_kind (updated (deref (heap w) r)) (updated (deref (heap w) e)) = true →
  legible (updated (deref (heap w) r)) →
  legible (updated (deref (heap w) e)) →
  instant (updated (deref (heap w) r)) = Some t →
  instant (updated (deref (heap w) e)) = Some t' →
  t' < t →
  add (One (Some r)) w =
    (mkWorld (heap w) (drawn w)
       (mkCollection (name (this w)) (store (this w))
          (<[i := r]> (records (this w))) (<[u := r]> (uuidMap (this w)))),
     Normal).
Proof.
  intros Hu Hne Hm Hnd Hi Hk _ _ Ht Ht' Hlt.
  pose proof (js_gt_later _ _ t t' Hk Ht Ht' Hlt) as Hgt.
  apply (add_replaces_in_place r e w u i); try done.
  by apply (js_gt_truthy _ _ Hgt).
Qed.

(** A record without a uuid (or with an empty one) is given the next uuid
    of [util.uuid()], written into the object itself; when the index does
    not know that uuid the record is appended and indexed under it. *)
Theorem add_assigns_uuid (r : loc) (w : world) :
  (r < length (heap w))%nat →
  (∀ u, uuid (deref (heap w) r) = Some u → u = "") →
  uuidMap (this w) !! util_uuid (drawn w) = None →
  add (One (Some r)) w =
    (mkWorld (<[r := set_uuid (util_uuid (drawn w)) (deref (heap w) r)]> (heap w))
       (S (drawn w))
       (mkCollection (name (this w)) (store (this w))
          (records (this w) ++ [r])
          (<[util_uuid (drawn w) := r]> (uuidMap (this w)))),
     Normal).
Proof.
  intros Hr Hno Hm. rewrite add_single. unfold add_one.
  destruct (uuid_or_new_cases (deref (heap w) r) (drawn w))
    as [(u & Hu & Hne & _)|[_ ->]].
  - by specialize (Hno u Hu).
  - by rewrite Hm.
Qed.

End Merging_again.

Section Store_again.
Context `{Platform}.

(** ** Failed and repeated fetches *)

(** A fetch that fails, for whatever reason (the source, the password, the
    text, a [null] among the records), leaves the [records] sequence of
    the collection as it was. *)
Theorem failed_fetch_keeps_records
    (o : options) (ss : sources) (w : world) (e : error) :
  (Store_fetch o ss w).2 = Failed e →
  records (this (Store_fetch o ss w).1.1) = records (this w).
Proof.
  rewrite Store_fetch_unfold. simpl.
  destruct (source_fetch _ _) as [s' [err|data]]; simpl; [done|].
  unfold fetch_data.
  destruct (pwdDecrypt _ data) as [err|pt]; [done|].
  destruct (JSON_parse pt) as [err|doc]; [done|].
  simpl. destruct (allocate doc (heap w)) as [h rs].
  unfold add. simpl.
  pose proof (forEach_frame rs
                (mkWorld h (drawn w)
                   (with_password (password_of o (store (this w))) (this w)))
                (records (this w))) as (Hr & _).
  simpl in Hr.
  destruct (forEach rs _ (records (this w))) as [[w' recs] c'].
  simpl in *. by destruct c'.
Qed.

Lemma reached_objects (ks : list loc) : reached (Some <$> ks) = ks.
Proof. induction ks as [|k ks IH]; simpl; [done|]. by f_equal. Qed.

Lemma ends_objects (ks : list loc) : ends (Some <$> ks) = Normal.
Proof. by induction ks. Qed.

Lemma js_gt_toJSON (o : record) : js_gt (updated (toJSON o)) (updated o) = false.
Proof.
  unfold toJSON. destruct (updated o) as [|t|t] eqn:E; simpl; rewrite ?E; try done.
  apply Z.ltb_irrefl.
Qed.

(** The JSON forms of the records of a collection, allocated as new
    objects, are all settled against the index of that collection. *)
Lemma json_forms_settled (h : list record) (n : nat) (c : Collection) (ls : list loc) :
  (∀ l, l ∈ ls → ∃ u, uuid (deref h l) = Some u ∧ u ≠ "" ∧ uuidMap c !! u = Some l) →
  ∀ l, l ∈ seq (length h) (length ls) →
    settled (mkWorld (h ++ (toJSON <$> (deref h <$> ls))) n c) l.
Proof.
  intros Hix l Hl. apply list_elem_of_lookup in Hl as [i Hi].
  apply lookup_seq in Hi as [-> Hi].
  destruct (lookup_lt_is_Some_2 ls i Hi) as [e He].
  destruct (Hix e) as (u & Hu & Hne & Hm); [apply list_elem_of_lookup; eauto|].
  pose proof (deref_allocated _ _ _ Hu) as Hlt.
  assert (deref (h ++ (toJSON <$> (deref h <$> ls))) (length h + i)
          = toJSON (deref h e)) as Hnew.
  { unfold deref at 1. rewrite lookup_app_r by lia.
    replace (length h + i - length h)%nat with i by lia.
    by rewrite !list_lookup_fmap, He. }
  assert (deref (h ++ (toJSON <$> (deref h <$> ls))) e = deref h e) as Hold.
  { unfold deref. by rewrite lookup_app_l. }
  exists u, e. simpl. rewrite Hnew, Hold, toJSON_uuid.
  split_and!; try done. apply js_gt_toJSON.
Qed.

(** Fetching into a collection the blob that was saved from it (same
    password, nothing changed in between) changes neither its sequence nor
    its index: every fetched record is taken for the one already there. The
    codec and JSON are assumed to round-trip. *)
Theorem fetch_of_own_blob_changes_nothing
    (p : option string) (w : world) :
  (∀ q t, pwdDecrypt q (pwdEncrypt q t) = inr t) →
  (∀ rs, JSON_parse (JSON_stringify rs) = inr ((λ r, Some (toJSON r)) <$> rs)) →
  keyed w → indexed w →
  fetch_data p (pwdEncrypt p (JSON_stringify (contents_of w))) w
  = (mkWorld (heap w ++ (toJSON <$> contents_of w)) (drawn w) (this w),
     Succeeded).
Proof.
  intros Hcodec Hjson Hk Hix. unfold fetch_data.
  rewrite Hcodec, Hjson, (list_fmap_compose toJSON Some), allocate_objects.
  unfold add. simpl. rewrite forEach_keeps_settled.
  - rewrite length_fmap. unfold contents_of. rewrite length_fmap.
    rewrite ends_objects.
    simpl. by rewrite with_records_eta.
  - intros l Hl.
    rewrite reached_objects in Hl. unfold contents_of in *.
    rewrite !length_fmap in Hl.
    apply json_forms_settled; [|done].
    intros l' Hl'. destruct (Hix l' Hl') as (u & Hu & Hm).
    destruct (Hk u l' Hm) as [_ Hne]. by exists u.
Qed.

(** After [lock], fetching the blob that was saved from the collection
    before, with the password it was saved with, succeeds and leaves the
    sequence empty: the index still holds every record, so each fetched
    record is taken for a known one. *)
Theorem fetch_after_lock_restores_nothing
    (p : option string) (w : world) :
  (∀ q t, pwdDecrypt q (pwdEncrypt q t) = inr t) →
  (∀ rs, JSON_parse (JSON_stringify rs) = inr ((λ r, Some (toJSON r)) <$> rs)) →
  keyed w → indexed w →
  (fetch_data p (pwdEncrypt p (JSON_stringify (contents_of w))) (lock w)).2
    = Succeeded
  ∧ records (this (fetch_data p (pwdEncrypt p (JSON_stringify (contents_of w)))
                     (lock w)).1) = []
  ∧ uuidMap (this (fetch_data p (pwdEncrypt p (JSON_stringify (contents_of w)))
                     (lock w)).1) = uuidMap (this w).
Proof.
  intros Hcodec Hjson Hk Hix. unfold fetch_data.
  rewrite Hcodec, Hjson, (list_fmap_compose toJSON Some), allocate_objects.
  unfold add. simpl. rewrite forEach_keeps_settled.
  - rewrite length_fmap. unfold contents_of. rewrite length_fmap.
    rewrite ends_objects.
    done.
  - intros l Hl.
    rewrite reached_objects in Hl. unfold contents_of in *.
    rewrite !length_fmap in Hl.
    apply (json_forms_settled (heap w) (drawn w)
             (with_password None (with_records [] (this w)))); [|done].
    intros l' Hl'. destruct (Hix l' Hl') as (u & Hu & Hm).
    destruct (Hk u l' Hm) as [_ Hne]. by exists u.
Qed.

(** After [lock] a fetch that is given no password decrypts with [null]:
    on a blob encrypted with a password it fails with the codec's
    [AuthenticationFailed], and the sequence stays empty. The codec is
    assumed to reject a wrong password. *)
Theorem fetch_after_lock_needs_password
    (o : options) (ss : sources) (w : world) (p : string) (t : text) :
  (∀ p q t, p ≠ q → pwdDecrypt q (pwdEncrypt p t) = inl AuthenticationFailed) →
  opt_password o = None →
  contents (get_source (source_of o) ss) !! getKey (this w)
    = Some (pwdEncrypt (Some p) t) →
  head (outages (get_source (source_of o) ss)) ≠ Some true →
  (Store_fetch o ss (lock w)).2 = Failed AuthenticationFailed
  ∧ records (this (Store_fetch o ss (lock w)).1.1) = []
  ∧ password (store (this (Store_fetch o ss (lock w)).1.1)) = None.
Proof.
  intros Hcodec Hopt Hblob Hup.
  rewrite Store_fetch_unfold. simpl.
  rewrite (source_fetch_answer _ _ Hup).
  replace (getKey (with_password None (with_records [] (this w))))
    with (getKey (this w)) by done.
  rewrite Hblob. simpl. unfold fetch_data, password_of. rewrite Hopt. simpl.
  by rewrite (Hcodec (Some p) None t).
Qed.

(** ** setPassword *)

(** After [setPassword(p)] reached the default source without I/O error,
    the store's password is [p] and the blob kept there opens with [p] and
    with no other password. The collection has records with distinct,
    non-empty uuids, none a name every object inherits; the blob is fetched
    into a newly created collection of the same name (nothing in its
    sequence, nothing in its index): with [p] that yields the JSON forms of
    the records, in order; with another password it fails with the error
    the codec raises and yields nothing. The codec is assumed to round-trip
    and to reject a wrong password, JSON to round-trip. *)
Theorem setPassword_reencrypts
    (p : string) (o' : options) (ss : sources) (w w0 : world) :
  (∀ p t, pwdDecrypt p (pwdEncrypt p t) = inr t) →
  (∀ p q t, p ≠ q → ∃ e, pwdDecrypt q (pwdEncrypt p t) = inl e) →
  (∀ rs, JSON_parse (JSON_stringify rs) = inr ((λ r, Some (toJSON r)) <$> rs)) →
  storable (contents_of w) →
  plainly_named (contents_of w) →
  no_outage (defaultSource ss) →
  name (this w0) = name (this w) →
  records (this w0) = [] → uuidMap (this w0) = ∅ →
  opt_source o' = None →
  password_of o' (store (this w0)) ≠ Some p →
  (setPassword p ss w).2 = Succeeded
  ∧ password (store (this (setPassword p ss w).1.1)) = Some p
  ∧ (Store_fetch (mkOptions (Some p) None) (setPassword p ss w).1.2 w0).2
    = Succeeded
  ∧ contents_of (Store_fetch (mkOptions (Some p) None)
                   (setPassword p ss w).1.2 w0).1.1
    = toJSON <$> contents_of w
  ∧ ∃ e, (Store_fetch o' (setPassword p ss w).1.2 w0).2 = Failed e
         ∧ contents_of (Store_fetch o' (setPassword p ss w).1.2 w0).1.1 = [].
Proof.
  intros Hcodec Hreject Hjson Hos _ Hup Hname Hr Hm Hsrc Hq.
  unfold setPassword, Collection_save, Store_save. simpl.
  destruct (source_save_stores (getKey (this w))
              (pwdEncrypt (Some p)
                 (JSON_stringify (deref (heap w) <$> records (this w))))
              _ Hup) as [Hsave Hup'].
  replace (getKey (with_password (Some p) (this w))) with (getKey (this w))
    by done.
  rewrite Hsave in *. simpl in Hup'. simpl.
  assert (head (tail (outages (defaultSource ss))) ≠ Some true) as Hhead.
  { unfold no_outage in Hup'. simpl in Hup'.
    destruct (tail _) as [|b rest]; [done|].
    apply Forall_cons in Hup' as [-> _]. done. }
  assert (getKey (this w0) = getKey (this w)) as Hkey
    by (unfold getKey; by rewrite Hname).
  split; [done|]. split; [done|].
  rewrite !Store_fetch_unfold. simpl.
  unfold source_of. rewrite Hsrc. simpl.
  rewrite !source_fetch_answer by done. simpl.
  rewrite Hkey, lookup_insert_eq. simpl.
  destruct (fetch_data_into_empty (Some p)
              (pwdEncrypt (Some p)
                 (JSON_stringify (deref (heap w) <$> records (this w))))
              (deref (heap w) <$> records (this w))
              (mkWorld (heap w0) (drawn w0) (with_password (Some p) (this w0))))
    as [Hout Hcont]; try done.
  split; [exact Hout|]. split; [exact Hcont|].
  unfold fetch_data.
  destruct (Hreject (Some p) (password_of o' (store (this w0)))
              (JSON_stringify (deref (heap w) <$> records (this w))))
    as [e He]; [congruence|].
  exists e. rewrite He. simpl. split; [done|].
  unfold contents_of. simpl. by rewrite Hr.
Qed.

End Store_again.

Section Sync_again.
Context `{Platform}.

(** ** What sync leaves in the sources *)

Lemma source_save_succeeded (key : string) (d : blob) (s : Source) :
  (source_save key d s).2 = Succeeded →
  contents (source_save key d s).1 !! key = Some d.
Proof.
  unfold source_save. destruct (outages s) as [|[|] rest]; simpl; try done;
    intros _; by rewrite lookup_insert_eq.
Qed.

Lemma source_fetch_contents (key : string) (s : Source) :
  contents (source_fetch key s).1 = contents s.
Proof.
  unfold source_fetch. by destruct (outages s) as [|[|] rest].
Qed.

Lemma Store_fetch_contents (o : options) (ss : sources) (w : world) :
  contents (defaultSource (Store_fetch o ss w).1.2) = contents (defaultSource ss)
  ∧ contents (givenSource (Store_fetch o ss w).1.2) = contents (givenSource ss).
Proof.
  rewrite Store_fetch_unfold. simpl.
  destruct (source_of o); simpl; by rewrite source_fetch_contents.
Qed.

Lemma Store_save_unfold (o : options) (ss : sources) (w : world) :
  Store_save o ss w =
    (let d := pwdEncrypt (password (store (this w)))
                (JSON_stringify (contents_of w)) in
     let r := source_save (getKey (this w)) d (get_source (source_of o) ss) in
     (set_source (source_of o) r.1
        (logged (SaveTo (source_of o) (getKey (this w)) d) ss), r.2)).
Proof.
  unfold Store_save, contents_of. by destruct (source_save _ _ _).
Qed.

(** When [sync] succeeds, both sources keep under the collection's key the
    same blob: the merged records of the collection, encrypted with the
    store's password. *)
Theorem sync_leaves_same_blob (ss : sources) (w : world) :
  (sync ss w).2 = Succeeded →
  let w' := (sync ss w).1.1 in
  let d := pwdEncrypt (password (store (this w')))
             (JSON_stringify (contents_of w')) in
  contents (defaultSource (sync ss w).1.2) !! getKey (this w') = Some d
  ∧ contents (givenSource (sync ss w).1.2) !! getKey (this w') = Some d.
Proof.
  unfold sync, Collection_fetch, Collection_save.
  destruct (Store_fetch _ ss w) as [[w1 ss1] [|e1]]; [|done].
  rewrite !Store_save_unfold. simpl.
  set (d := pwdEncrypt (password (store (this w1)))
              (JSON_stringify (contents_of w1))).
  pose proof (source_save_succeeded (getKey (this w1)) d (defaultSource ss1)) as H2.
  destruct (source_save (getKey (this w1)) d (defaultSource ss1))
    as [s2 [|e2]]; simpl in *; [|done].
  rewrite Store_save_unfold. simpl. fold d.
  pose proof (source_save_succeeded (getKey (this w1)) d (givenSource ss1)) as H3.
  destruct (source_save (getKey (this w1)) d (givenSource ss1))
    as [s3 [|e3]]; simpl in *; [|done].
  auto.
Qed.

Lemma Store_save_elsewhere (o : options) (ss : sources) (w : world) :
  source_of o = DefaultSource →
  givenSource (Store_save o ss w).1 = givenSource ss.
Proof.
  intros Ho. rewrite Store_save_unfold. simpl. by rewrite Ho.
Qed.

(** When [sync] fails in the fetch or in the save to the default source,
    that failure is its outcome, it has sent no save request to the given
    source, and the given source keeps exactly what it kept before. *)
Theorem failed_sync_leaves_given_source (ss : sources) (w : world) (e : error) :
  let pull := Store_fetch (mkOptions None (Some GivenSource)) ss w in
  pull.2 = Failed e
  ∨ (pull.2 = Succeeded
     ∧ (Store_save no_options pull.1.2 pull.1.1).2 = Failed e) →
  (sync ss w).2 = Failed e
  ∧ contents (givenSource (sync ss w).1.2) = contents (givenSource ss)
  ∧ (∀ k d, SaveTo GivenSource k d ∈ journal (sync ss w).1.2 →
            SaveTo GivenSource k d ∈ journal ss).
Proof.
  unfold sync, Collection_fetch, Collection_save. simpl.
  pose proof (Store_fetch_contents (mkOptions None (Some GivenSource)) ss w)
    as [_ Hg].
  pose proof (Store_fetch_journal (mkOptions None (Some GivenSource)) ss w) as Hj1.
  destruct (Store_fetch _ ss w) as [[w1 ss1] o1]; simpl in *.
  pose proof (Store_save_elsewhere no_options ss1 w1 eq_refl) as Hs.
  pose proof (Store_save_journal no_options ss1 w1) as [c2 Hj2].
  destruct (Store_save no_options ss1 w1) as [ss2 o2]; simpl in *.
  intros [->|[-> ->]]; simpl.
  - split_and!; [done..|]. intros k d. rewrite Hj1.
    intros [Hin|Hin]%elem_of_app; [done|].
    by apply list_elem_of_singleton in Hin.
  - split_and!; [done|by rewrite Hs|]. intros k d. rewrite Hj2, Hj1.
    intros [[Hin|Hin]%elem_of_app|Hin]%elem_of_app; [done| |];
      by apply list_elem_of_singleton in Hin.
Qed.

(** ** exists *)

Lemma exists_without_options_throws (ss : sources) (w : world) :
  Store_exists None ss w = (ss, Raised TypeError).
Proof. done. Qed.

(** After a save that succeeded, [exists] on the same source (when it meets
    no I/O error) answers [true], for any collection of that name; called
    without options it throws instead and no source is asked, where [save]
    and [fetch] accept the same call. *)
Theorem exists_after_save (o o' : options) (ss : sources) (w w' : world) :
  (Store_save o ss w).2 = Succeeded →
  source_of o' = source_of o →
  name (this w') = name (this w) →
  head (outages (get_source (source_of o) (Store_save o ss w).1)) ≠ Some true →
  (Store_exists (Some o') (Store_save o ss w).1 w').2 = Delivered true
  ∧ Store_exists None (Store_save o ss w).1 w'
    = ((Store_save o ss w).1, Raised TypeError).
Proof.
  rewrite Store_save_unfold. simpl. intros Hs Hsrc Hname Hup.
  split; [|done].
  rewrite Hsrc. rewrite get_set_source in *.
  pose proof (source_save_succeeded _ _ _ Hs) as Hd.
  replace (getKey (this w')) with (getKey (this w))
    by (unfold getKey; by rewrite Hname).
  destruct (source_save _ _ _) as [s' out]. simpl in *.
  unfold source_exists.
  destruct (outages s') as [|[|] rest]; simpl in *; try done;
    rewrite Hd; by rewrite bool_decide_eq_true_2.
Qed.

(** ** lock and save *)

(** Saving a collection once it is locked replaces the blob kept for it by
    the empty list of records, encrypted with the [null] password: the
    stored records are gone from that source. *)
Theorem save_after_lock_stores_nothing (o : options) (ss : sources) (w : world) :
  no_outage (get_source (source_of o) ss) →
  (Store_save o ss (lock w)).2 = Succeeded
  ∧ contents (get_source (source_of o) (Store_save o ss (lock w)).1)
      !! getKey (this w)
    = Some (pwdEncrypt None (JSON_stringify [])).
Proof.
  intros Hup. rewrite Store_save_unfold. simpl.
  replace (getKey (with_password None (with_records [] (this w))))
    with (getKey (this w)) by done.
  destruct (source_save_stores (getKey (this w))
              (pwdEncrypt None (JSON_stringify (contents_of (lock w))))
              _ Hup) as [-> _].
  simpl. rewrite get_set_source. simpl. by rewrite lookup_insert_eq.
Qed.

End Sync_again.

Section Saving_a_record.
Context `{Platform}.

(** ** Collection.save with a record *)

Lemma filter_fields_ok (items : list json) :
  JNull ∉ items → filter_fields items = inr (List.filter field_filled items).
Proof.
  induction items as [|f items IH]; intros Hn; simpl; [done|].
  apply not_elem_of_cons in Hn as [Hf Hn].
  rewrite (IH Hn). destruct f; try done.
Qed.

Lemma filter_fields_null (items : list json) :
  JNull ∈ items → filter_fields items = inl TypeError.
Proof.
  induction items as [|f items IH]; intros Hin; simpl.
  - by apply elem_of_nil in Hin.
  - apply elem_of_cons in Hin as [<-|Hin]; [done|].
    rewrite (IH Hin). by destruct f.
Qed.

Lemma name_or_default_truthy (o : record) :
  json_truthy (Some (name_or_default o)) = true.
Proof.
  unfold name_or_default.
  destruct (json_truthy (attrs o !! "name")) eqn:E; [|done].
  by destruct (attrs o !! "name").
Qed.

Lemma name_kept (o : record) :
  json_truthy (attrs o !! "name") = true →
  Some (name_or_default o) = attrs o !! "name".
Proof.
  intros Ht. unfold name_or_default. rewrite Ht.
  by destruct (attrs o !! "name").
Qed.

Lemma name_defaulted (o : record) :
  json_truthy (attrs o !! "name") = false →
  name_or_default o = JStr "Unnamed".
Proof. intros Ht. unfold name_or_default. by rewrite Ht. Qed.

Lemma filter_no_null (items : list json) :
  JNull ∉ List.filter field_filled items.
Proof.
  intros Hin. apply list_elem_of_In, filter_In in Hin as [_ Hf]. done.
Qed.

Lemma filter_fields_again (items : list json) :
  List.filter field_filled (List.filter field_filled items)
  = List.filter field_filled items.
Proof.
  induction items as [|f items IH]; simpl; [done|].
  destruct (field_filled f) eqn:E; simpl; [|done].
  by rewrite E, IH.
Qed.

Lemma normalise_filters (now : Z) (o : record) (items : list json) :
  attrs o !! "fields" = Some (JArr items) →
  JNull ∉ items →
  normalise now o
  = (Rec (uuid o) (DateObj now) (removed o)
       (<["fields" := JArr (List.filter field_filled items)]>
          (<["name" := name_or_default o]> (attrs o))), Normal).
Proof.
  intros Hf Hn. unfold normalise. by rewrite Hf, (filter_fields_ok _ Hn).
Qed.

(** A record whose [fields] is an array without [null]: after the
    normalisation its name is its own when that was truthy and "Unnamed"
    otherwise, its fields are those that had a name or a value, in their
    order, [updated] is the current time, and every other property is as
    before. *)
Theorem normalise_record (now : Z) (o : record) (items : list json) :
  attrs o !! "fields" = Some (JArr items) →
  JNull ∉ items →
  (normalise now o).2 = Normal
  ∧ (json_truthy (attrs o !! "name") = true →
     attrs (normalise now o).1 !! "name" = attrs o !! "name")
  ∧ (json_truthy (attrs o !! "name") = false →
     attrs (normalise now o).1 !! "name" = Some (JStr "Unnamed"))
  ∧ attrs (normalise now o).1 !! "fields"
    = Some (JArr (List.filter field_filled items))
  ∧ updated (normalise now o).1 = DateObj now
  ∧ uuid (normalise now o).1 = uuid o
  ∧ removed (normalise now o).1 = removed o
  ∧ (∀ k, k ≠ "name" → k ≠ "fields" →
       attrs (normalise now o).1 !! k = attrs o !! k).
Proof.
  intros Hf Hn. unfold normalise. rewrite Hf, (filter_fields_ok _ Hn). simpl.
  split_and!; try done.
  - intros Ht. rewrite lookup_insert_ne by done. rewrite lookup_insert_eq.
    by apply name_kept.
  - intros Ht. rewrite lookup_insert_ne by done. rewrite lookup_insert_eq.
    by rewrite (name_defaulted _ Ht).
  - by rewrite lookup_insert_eq.
  - intros k Hk Hk'. by rewrite !lookup_insert_ne.
Qed.

(** Normalising again changes only the time stamp: no further field is
    dropped and the name stays. *)
Theorem normalise_twice (now now' : Z) (o : record) (items : list json) :
  attrs o !! "fields" = Some (JArr items) →
  JNull ∉ items →
  normalise now' (normalise now o).1
  = (set_updated (DateObj now') (normalise now o).1, Normal).
Proof.
  intros Hf Hn. unfold normalise at 2 3.
  rewrite Hf, (filter_fields_ok _ Hn). simpl.
  unfold normalise. simpl. rewrite lookup_insert_eq.
  rewrite (filter_fields_ok _ (filter_no_null items)).
  rewrite filter_fields_again.
  unfold set_updated, name_or_default. simpl.
  rewrite lookup_insert_ne by done. rewrite lookup_insert_eq.
  fold (name_or_default o). rewrite name_or_default_truthy. simpl.
  do 2 f_equal.
  rewrite (insert_insert_ne (<["name":=name_or_default o]> (attrs o))
             "name" "fields") by done.
  by rewrite insert_insert_eq, insert_insert_eq.
Qed.

(** Saving with a record of the heap: the object itself is normalised, and
    the blob handed to the source is made of the collection's records as
    they are after that, so an edited record that belongs to the collection
    is persisted in its normalised form. *)
Theorem save_record_persists
    (rec : loc) (now : Z) (o : options) (ss : sources) (w : world)
    (items : list json) :
  (rec < length (heap w))%nat →
  attrs (deref (heap w) rec) !! "fields" = Some (JArr items) →
  JNull ∉ items →
  let after := (Collection_save_record rec now o ss w).1.1 in
  deref (heap after) rec = (normalise now (deref (heap w) rec)).1
  ∧ (∀ l, l ≠ rec → deref (heap after) l = deref (heap w) l)
  ∧ this after = this w
  ∧ journal (Collection_save_record rec now o ss w).1.2
    = journal ss
      ++ [SaveTo (source_of o) (getKey (this w))
            (pwdEncrypt (password (store (this w)))
               (JSON_stringify (contents_of after)))].
Proof.
  intros Hr Hf Hn. unfold Collection_save_record.
  rewrite (normalise_filters now _ items Hf Hn).
  rewrite Store_save_unfold. simpl.
  destruct (source_save _ _ _) as [s' [|e]]; simpl;
    (split_and!;
     [by rewrite deref_insert_eq
     |by intros l Hl; rewrite deref_insert_ne
     |done
     |by destruct (source_of o)]).
Qed.

(** Saving with a record whose [fields] is not an array, or is an array
    with a [null] in it, throws a [TypeError]: no source is asked, the
    record keeps its [updated] and its [fields], and its name has been
    written already: its own when that was truthy, "Unnamed" otherwise. *)
Theorem save_record_without_fields
    (rec : loc) (now : Z) (o : options) (ss : sources) (w : world) :
  (rec < length (heap w))%nat →
  (∀ items, attrs (deref (heap w) rec) !! "fields" = Some (JArr items) →
            JNull ∈ items) →
  let after := (Collection_save_record rec now o ss w).1.1 in
  Collection_save_record rec now o ss w = (after, ss, Raised TypeError)
  ∧ updated (deref (heap after) rec) = updated (deref (heap w) rec)
  ∧ attrs (deref (heap after) rec) !! "fields"
    = attrs (deref (heap w) rec) !! "fields"
  ∧ (json_truthy (attrs (deref (heap w) rec) !! "name") = true →
     attrs (deref (heap after) rec) !! "name"
     = attrs (deref (heap w) rec) !! "name")
  ∧ (json_truthy (attrs (deref (heap w) rec) !! "name") = false →
     attrs (deref (heap after) rec) !! "name" = Some (JStr "Unnamed")).
Proof.
  intros Hr Hbad. unfold Collection_save_record, normalise.
  set (ob := deref (heap w) rec) in *.
  assert (∀ m : gmap string json,
            (json_truthy (attrs ob !! "name") = true →
             <["name" := name_or_default ob]> m !! "name" = attrs ob !! "name")
            ∧ (json_truthy (attrs ob !! "name") = false →
               <["name" := name_or_default ob]> m !! "name"
               = Some (JStr "Unnamed"))) as Hname.
  { intros m. rewrite lookup_insert_eq. split; intros Ht.
    - by apply name_kept.
    - by rewrite (name_defaulted _ Ht). }
  destruct (attrs ob !! "fields") as [[| | | |items|]|] eqn:Ef; simpl;
    try (rewrite deref_insert_eq by done; simpl;
         rewrite lookup_insert_ne by done;
         split_and!; try done; apply Hname).
  rewrite (filter_fields_null items) by (by apply Hbad). simpl.
  rewrite deref_insert_eq by done. simpl.
  rewrite lookup_insert_ne by done.
  split_and!; try done; apply Hname.
Qed.

End Saving_a_record.

(** * The model on concrete inputs *)

(** C1: a record removed here at time 100 and, for the same uuid, a version
    stored elsewhere at time 200 and read back from JSON. The incoming
    timestamp is the later one, and [add] discards the incoming record: the
    string is compared with the [Date] of the tombstone and the comparison
    is false. *)
Theorem later_version_from_json_discarded :
  records (this tombstoned_then_edited) = [0%nat]
  ∧ uuidMap (this tombstoned_then_edited) !! "a" = Some 0%nat
  ∧ deref (heap tombstoned_then_edited) 0 = Rec (Some "a") (DateObj 100) (Some true) ∅
  ∧ deref (heap tombstoned_then_edited) 1 = mail_edited
  ∧ instant (updated mail_edited) = Some 200
  ∧ @add plain (One (Some 1%nat)) tombstoned_then_edited
    = (tombstoned_then_edited, Normal).
Proof. by vm_compute. Qed.

(** C2: after [lock] the index still has the entry of the record that
    [lock] dropped from the sequence, so index and sequence disagree; and
    the same record read again from storage is then taken for a known one
    and not put back. *)
Theorem lock_leaves_the_index :
  records (this locked) = []
  ∧ uuidMap (this locked) !! "a" = Some 0%nat
  ∧ ¬ index_sound locked
  ∧ ¬ consistent locked
  ∧ records (this unlocked_again) = [].
Proof.
  assert (¬ index_sound locked) as Hn.
  { intros Hs. specialize (Hs "a" 0%nat eq_refl). vm_compute in Hs.
    by apply elem_of_nil in Hs. }
  split; [done|]. split; [done|]. split; [done|]. split; [|done].
  by intros (_ & Hs & _).
Qed.

(** C4: the given source has nothing under the key yet. [sync] ends in the
    failure [NotFound] after the one fetch request; nothing is saved to
    either source. *)
Theorem sync_with_empty_source :
  (@sync plain empty_sources stocked).2 = Failed NotFound
  ∧ journal (@sync plain empty_sources stocked).1.2
    = [FetchFrom GivenSource "coll_default"]
  ∧ contents (defaultSource (@sync plain empty_sources stocked).1.2) = ∅
  ∧ contents (givenSource (@sync plain empty_sources stocked).1.2) = ∅.
Proof. by vm_compute. Qed.

(** C7: an array whose second entry is [null], added to a new collection.
    The call throws at the [null] after the first record was merged: the
    [records] sequence is still empty, and the index has the entry of the
    first record, which it did not have before the call and which points
    to no record of the sequence. *)
Theorem add_throw_leaves_index_entry :
  (@add plain with_null created_only).2 = Throw TypeError
  ∧ records (this created_only) = []
  ∧ uuidMap (this created_only) !! "a" = None
  ∧ records (this (@add plain with_null created_only).1) = []
  ∧ uuidMap (this (@add plain with_null created_only).1) !! "a" = Some 0%nat
  ∧ ¬ index_sound (@add plain with_null created_only).1.
Proof.
  assert (¬ index_sound (@add plain with_null created_only).1) as Hn.
  { intros Hs. specialize (Hs "a" 0%nat eq_refl). vm_compute in Hs.
    by apply elem_of_nil in Hs. }
  split_and!; [by vm_compute..|exact Hn].
Qed.

(** A call that throws does not leave the whole collection as it was: on
    an array whose second entry is [null] the [records] sequence is the old
    one, and the index has an entry it did not have. *)
Lemma add_throw_changes_index :
  ¬ (∀ (a : add_arg) (w w' : world) (e : error),
       @add plain a w = (w', Throw e) →
       records (this w') = records (this w)
       ∧ uuidMap (this w') = uuidMap (this w)).
Proof.
  intros Hall.
  destruct (Hall with_null created_only _ TypeError eq_refl) as [_ Hm].
  apply (f_equal (λ m : gmap string nat, m !! "a")) in Hm.
  by vm_compute in Hm.
Qed.

Lemma add_throw_keeps_records_witness :
  records (this (@add plain with_null created_only).1)
  = records (this created_only).
Proof.
  apply (@add_throw_keeps_records plain with_null created_only _ TypeError).
  reflexivity.
Defined.

(** C3, as stated, fails, in two ways. The tombstone holds a [Date]; what
    is fetched back into a new collection holds the ISO-8601 string of it.
    And a collection emptied by [lock] is empty, yet what was saved from it
    before and is fetched back into it leaves it empty. *)
Lemma fetch_back_is_not_identical :
  ((@Store_save plain no_options empty_sources tombstoned).2 = Succeeded
   ∧ (@Store_fetch plain no_options
        (@Store_save plain no_options empty_sources tombstoned).1 initial).2
     = Succeeded
   ∧ contents_of tombstoned = [Rec (Some "a") (DateObj 100) (Some true) ∅]
   ∧ contents_of (@Store_fetch plain no_options
        (@Store_save plain no_options empty_sources tombstoned).1 initial).1.1
     = [Rec (Some "a") (IsoString 100) (Some true) ∅]
   ∧ contents_of (@Store_fetch plain no_options
        (@Store_save plain no_options empty_sources tombstoned).1 initial).1.1
     ≠ contents_of tombstoned)
  ∧ ((@Store_save plain no_options empty_sources stocked).2 = Succeeded
     ∧ contents_of stocked = [mail]
     ∧ contents_of locked = []
     ∧ name (this locked) = name (this stocked)
     ∧ (@Store_fetch plain (mkOptions (Some "") None)
          (@Store_save plain no_options empty_sources stocked).1 locked).2
       = Succeeded
     ∧ contents_of (@Store_fetch plain (mkOptions (Some "") None)
          (@Store_save plain no_options empty_sources stocked).1 locked).1.1
       = []).
Proof. by vm_compute. Qed.

Lemma plain_codec_round_trip (p : option string) (t : @text plain) :
  @pwdDecrypt plain p (@pwdEncrypt plain p t) = inr t.
Proof. simpl. unfold plain_decrypt. simpl. by rewrite decide_True. Qed.

Lemma plain_codec_rejects (p q : option string) (t : @text plain) :
  p ≠ q → @pwdDecrypt plain q (@pwdEncrypt plain p t) = inl AuthenticationFailed.
Proof. intros Hne. simpl. unfold plain_decrypt. simpl. by rewrite decide_False. Qed.

Lemma save_then_fetch_witness :
  contents_of (@Store_fetch plain no_options
       (@Store_save plain no_options empty_sources tombstoned).1 initial).1.1
  = toJSON <$> contents_of tombstoned.
Proof.
  apply (@save_then_fetch plain no_options no_options empty_sources
           tombstoned initial).
  - apply plain_codec_round_trip.
  - reflexivity.
  - split; vm_compute.
    + repeat constructor. by exists "a".
    + repeat constructor. by intros ?%elem_of_nil.
  - repeat constructor. by intros u [= <-].
  - constructor.
  - reflexivity.
  - reflexivity.
  - reflexivity.
  - reflexivity.
  - reflexivity.
Defined.

Lemma tombstone_survives_older_copy_witness :
  @add plain (One (Some 1%nat)) (remove 0 100 stocked_and_copy)
  = (remove 0 100 stocked_and_copy, Normal)
  ∧ uuidMap (this (remove 0 100 stocked_and_copy)) !! "a" = Some 0%nat
  ∧ deref (heap (remove 0 100 stocked_and_copy)) 0
    = Rec (Some "a") (DateObj 100) (Some true) ∅.
Proof.
  apply (@tombstone_survives_older_copy plain 0%nat 1%nat 100 50
           stocked_and_copy "a").
  - reflexivity.
  - discriminate.
  - reflexivity.
  - reflexivity.
  - reflexivity.
  - lia.
Defined.

Lemma remove_makes_tombstone_witness :
  uuid (deref (heap (remove 0 100 stocked)) 0) = uuid (deref (heap stocked) 0)
  ∧ updated (deref (heap (remove 0 100 stocked)) 0) = DateObj 100
  ∧ removed (deref (heap (remove 0 100 stocked)) 0) = Some true
  ∧ attrs (deref (heap (remove 0 100 stocked)) 0) = ∅
  ∧ (∀ l, l ≠ 0%nat →
       deref (heap (remove 0 100 stocked)) l = deref (heap stocked) l)
  ∧ records (this (remove 0 100 stocked)) = records (this stocked)
  ∧ uuidMap (this (remove 0 100 stocked)) = uuidMap (this stocked).
Proof.
  apply (remove_makes_tombstone 0%nat 100 stocked).
  vm_compute. lia.
Defined.

Lemma add_without_timestamp_discarded_witness :
  @add plain (One (Some 1%nat)) stocked_and_unstamped
  = (stocked_and_unstamped, Normal).
Proof.
  apply (@add_without_timestamp_discarded plain 1%nat 0%nat
           stocked_and_unstamped "a").
  - reflexivity.
  - discriminate.
  - reflexivity.
  - reflexivity.
Defined.

Lemma wrong_password_fetch_fails_witness :
  (@Store_fetch plain (mkOptions (Some "wrong") None) right_sources initial).2
  = Failed AuthenticationFailed
  ∧ (@Store_fetch plain (mkOptions (Some "wrong") None) right_sources initial).1.1
    = mkWorld [] 0 (with_password (Some "wrong") (this initial)).
Proof.
  apply (@wrong_password_fetch_fails plain (mkOptions (Some "wrong") None)
           right_sources initial (Some "right") [Some mail]).
  - apply plain_codec_rejects.
  - reflexivity.
  - discriminate.
  - discriminate.
Defined.

(** C8, as stated, fails: a codec that rejects every wrong password, by
    the error it also raises for a damaged blob. The fetch with the wrong
    password fails and merges nothing, and the error it fails with is that
    one, not [AuthenticationFailed]: [fetch] passes on what was thrown and
    names no kind of its own. *)
Lemma wrong_password_error_is_the_codecs :
  (∀ (p q : option string) (t : @text vague),
     p ≠ q → @pwdDecrypt vague q (@pwdEncrypt vague p t) = inl CorruptData)
  ∧ (@Store_fetch vague (mkOptions (Some "wrong") None) vague_sources initial).2
    = Failed CorruptData
  ∧ (@Store_fetch vague (mkOptions (Some "wrong") None) vague_sources initial).2
    ≠ Failed AuthenticationFailed
  ∧ contents_of
      (@Store_fetch vague (mkOptions (Some "wrong") None) vague_sources
         initial).1.1 = [].
Proof.
  split.
  - intros p q t Hne. simpl. unfold vague_decrypt. simpl.
    by rewrite decide_False.
  - by vm_compute.
Qed.

Lemma wrong_password_fetch_rejected_witness :
  ∃ e, @pwdDecrypt plain (Some "wrong")
         (@pwdEncrypt plain (Some "right") [Some mail]) = inl e
       ∧ (@Store_fetch plain (mkOptions (Some "wrong") None) right_sources
            initial).2 = Failed e
       ∧ (@Store_fetch plain (mkOptions (Some "wrong") None) right_sources
            initial).1.1
         = mkWorld [] 0 (with_password (Some "wrong") (this initial)).
Proof.
  apply (@wrong_password_fetch_rejected plain (mkOptions (Some "wrong") None)
           right_sources initial (Some "right") [Some mail]).
  - intros p q t Hne. exists AuthenticationFailed.
    by apply plain_codec_rejects.
  - reflexivity.
  - discriminate.
  - discriminate.
Defined.

(** C10 on a fetch that fails because the password is wrong: the wrong
    password is the store's password afterwards. *)
Lemma fetch_caches_password_witness :
  (@Store_fetch plain (mkOptions (Some "wrong") None) right_sources initial).2
  = Failed AuthenticationFailed
  ∧ password (store (this initial)) = Some ""
  ∧ password (store (this (@Store_fetch plain (mkOptions (Some "wrong") None)
                             right_sources initial).1.1)) = Some "wrong".
Proof.
  split; [reflexivity|]. split; [reflexivity|].
  apply (@fetch_caches_password plain (mkOptions (Some "wrong") None) initial).
Defined.

(** * The further properties on concrete inputs *)

Lemma plain_uuid_not_empty (n : nat) : @util_uuid plain n ≠ "".
Proof. done. Qed.

Lemma plain_json_round_trip (rs : list record) :
  @JSON_parse plain (@JSON_stringify plain rs)
  = inr ((λ r, Some (toJSON r)) <$> rs).
Proof. done. Qed.

Lemma add_twice_witness :
  @add plain with_null (@add plain with_null created_only).1
  = @add plain with_null created_only.
Proof.
  apply (@add_twice plain plain_uuid_not_empty with_null created_only).
  intros l Hl. apply elem_of_cons in Hl as [[= ->]|Hl]; [simpl; lia|].
  apply elem_of_cons in Hl as [[=]|Hl]. by apply elem_of_nil in Hl.
Defined.

Lemma later_version_wins_in_either_order_witness :
  @add plain (Many [Some 1%nat; Some 0%nat]) two_versions
    = (mkWorld (heap two_versions) (drawn two_versions)
         (mkCollection (name (this two_versions)) (store (this two_versions))
            (records (this two_versions) ++ [1%nat])
            (<["a" := 1%nat]> (uuidMap (this two_versions)))),
       Normal)
  ∧ @add plain (Many [Some 0%nat; Some 1%nat]) two_versions
    = @add plain (Many [Some 1%nat; Some 0%nat]) two_versions.
Proof.
  apply (@later_version_wins_in_either_order plain 1%nat 0%nat two_versions "a").
  - reflexivity.
  - reflexivity.
  - discriminate.
  - reflexivity.
  - reflexivity.
  - simpl. apply not_elem_of_nil.
  - by vm_compute.
  - by vm_compute.
  - reflexivity.
Defined.

Lemma not_later_version_discarded_witness :
  @add plain (One (Some 1%nat)) stocked_and_copy = (stocked_and_copy, Normal).
Proof.
  apply (@not_later_version_discarded plain 1%nat 0%nat stocked_and_copy "a" 50 50).
  - reflexivity.
  - discriminate.
  - reflexivity.
  - by vm_compute.
  - by vm_compute.
  - reflexivity.
  - reflexivity.
  - lia.
Defined.

Lemma later_version_replaces_in_place_witness :
  @add plain (One (Some 1%nat)) stocked_and_edited =
    (mkWorld (heap stocked_and_edited) (drawn stocked_and_edited)
       (mkCollection (name (this stocked_and_edited))
          (store (this stocked_and_edited))
          (<[0%nat := 1%nat]> (records (this stocked_and_edited)))
          (<["a" := 1%nat]> (uuidMap (this stocked_and_edited)))),
     Normal).
Proof.
  apply (@later_version_replaces_in_place plain 1%nat 0%nat stocked_and_edited
           "a" 0%nat 200 50).
  - reflexivity.
  - discriminate.
  - reflexivity.
  - simpl. apply NoDup_singleton.
  - reflexivity.
  - reflexivity.
  - by vm_compute.
  - by vm_compute.
  - reflexivity.
  - reflexivity.
  - lia.
Defined.

Lemma add_assigns_uuid_witness :
  @add plain (One (Some 0%nat)) with_anonymous =
    (mkWorld
       (<[0%nat := set_uuid (@util_uuid plain (drawn with_anonymous))
                     (deref (heap with_anonymous) 0)]> (heap with_anonymous))
       (S (drawn with_anonymous))
       (mkCollection (name (this with_anonymous)) (store (this with_anonymous))
          (records (this with_anonymous) ++ [0%nat])
          (<[@util_uuid plain (drawn with_anonymous) := 0%nat]>
             (uuidMap (this with_anonymous)))),
     Normal).
Proof.
  apply (@add_assigns_uuid plain 0%nat with_anonymous).
  - simpl. lia.
  - simpl. discriminate.
  - reflexivity.
Defined.

Lemma rough_week_refers : @allowed plain refers rough_week initial.
Proof.
  simpl. split_and!; try done;
    intros l Hl;
    repeat (apply elem_of_cons in Hl as [Hl|Hl];
            [first [injection Hl as ->; vm_compute; lia | discriminate]|]);
    by apply elem_of_nil in Hl.
Qed.

Lemma one_per_uuid_run_witness :
  records (this (@run plain rough_week initial)) = [3%nat; 4%nat]
  ∧ one_per_uuid (@run plain rough_week initial).
Proof.
  split; [reflexivity|].
  apply (@one_per_uuid_run plain plain_uuid_not_empty rough_week).
  apply rough_week_refers.
Defined.

Lemma quiet_day_completes : @allowed plain (@completes plain) quiet_day initial.
Proof.
  simpl. unfold completes. simpl. split_and!; try done.
  intros l Hl. apply list_elem_of_singleton in Hl as [= ->]. simpl. lia.
Qed.

Lemma consistent_run_witness : consistent (@run plain quiet_day initial).
Proof.
  apply (@consistent_run plain plain_uuid_not_empty quiet_day).
  apply quiet_day_completes.
Defined.

Lemma sync_leaves_same_blob_witness :
  contents (defaultSource (@sync plain remote_sources stocked).1.2)
    !! getKey (this (@sync plain remote_sources stocked).1.1)
  = Some (@pwdEncrypt plain
            (password (store (this (@sync plain remote_sources stocked).1.1)))
            (@JSON_stringify plain
               (contents_of (@sync plain remote_sources stocked).1.1)))
  ∧ contents (givenSource (@sync plain remote_sources stocked).1.2)
      !! getKey (this (@sync plain remote_sources stocked).1.1)
    = Some (@pwdEncrypt plain
              (password (store (this (@sync plain remote_sources stocked).1.1)))
              (@JSON_stringify plain
                 (contents_of (@sync plain remote_sources stocked).1.1))).
Proof.
  apply (@sync_leaves_same_blob plain remote_sources stocked).
  reflexivity.
Defined.

Lemma failed_sync_leaves_given_source_witness :
  (@sync plain local_down_sources stocked).2 = Failed Unavailable
  ∧ contents (givenSource (@sync plain local_down_sources stocked).1.2)
    = contents (givenSource local_down_sources)
  ∧ (∀ k d,
       SaveTo GivenSource k d ∈ journal (@sync plain local_down_sources stocked).1.2 →
       SaveTo GivenSource k d ∈ journal local_down_sources).
Proof.
  apply (@failed_sync_leaves_given_source plain local_down_sources stocked
           Unavailable).
  right. split; reflexivity.
Defined.

Lemma sync_in_order_witness :
  (@sync plain local_down_sources stocked).2 = Failed Unavailable
  ∧ @phase_of plain <$> journal (@sync plain local_down_sources stocked).1.2
    = (@phase_of plain <$> journal local_down_sources)
      ++ [Some Pull; Some CommitLocal].
Proof.
  pose proof (@sync_in_order plain local_down_sources stocked) as Hsync.
  cbv zeta in Hsync. destruct Hsync as (_ & Hcommit & _).
  apply (Hcommit Unavailable); reflexivity.
Defined.

Lemma failed_fetch_keeps_records_witness :
  records (this (@Store_fetch plain (mkOptions (Some "wrong") None)
                   right_sources stocked).1.1)
  = records (this stocked).
Proof.
  apply (@failed_fetch_keeps_records plain (mkOptions (Some "wrong") None)
           right_sources stocked AuthenticationFailed).
  reflexivity.
Defined.

Lemma stocked_keyed : keyed stocked.
Proof.
  intros u l Hl.
  change (uuidMap (this stocked)) with ({["a" := 0%nat]} : gmap string nat) in Hl.
  apply lookup_singleton_Some in Hl as [<- <-]. done.
Qed.

Lemma stocked_indexed : indexed stocked.
Proof.
  intros l Hl. change (records (this stocked)) with [0%nat] in Hl.
  apply list_elem_of_singleton in Hl as ->. by exists "a".
Qed.

Lemma fetch_of_own_blob_changes_nothing_witness :
  @fetch_data plain (Some "")
    (@pwdEncrypt plain (Some "") (@JSON_stringify plain (contents_of stocked)))
    stocked
  = (mkWorld (heap stocked ++ (toJSON <$> contents_of stocked)) (drawn stocked)
       (this stocked), Succeeded).
Proof.
  apply (@fetch_of_own_blob_changes_nothing plain (Some "") stocked).
  - apply plain_codec_round_trip.
  - apply plain_json_round_trip.
  - apply stocked_keyed.
  - apply stocked_indexed.
Defined.

Lemma fetch_after_lock_restores_nothing_witness :
  (@fetch_data plain (Some "")
     (@pwdEncrypt plain (Some "") (@JSON_stringify plain (contents_of stocked)))
     (lock stocked)).2 = Succeeded
  ∧ records (this (@fetch_data plain (Some "")
       (@pwdEncrypt plain (Some "") (@JSON_stringify plain (contents_of stocked)))
       (lock stocked)).1) = []
  ∧ uuidMap (this (@fetch_data plain (Some "")
       (@pwdEncrypt plain (Some "") (@JSON_stringify plain (contents_of stocked)))
       (lock stocked)).1) = uuidMap (this stocked).
Proof.
  apply (@fetch_after_lock_restores_nothing plain (Some "") stocked).
  - apply plain_codec_round_trip.
  - apply plain_json_round_trip.
  - apply stocked_keyed.
  - apply stocked_indexed.
Defined.

Lemma fetch_after_lock_needs_password_witness :
  (@Store_fetch plain no_options right_sources (lock stocked)).2
    = Failed AuthenticationFailed
  ∧ records (this (@Store_fetch plain no_options right_sources
                     (lock stocked)).1.1) = []
  ∧ password (store (this (@Store_fetch plain no_options right_sources
                             (lock stocked)).1.1)) = None.
Proof.
  apply (@fetch_after_lock_needs_password plain no_options right_sources stocked
           "right" [Some mail]).
  - apply plain_codec_rejects.
  - reflexivity.
  - reflexivity.
  - discriminate.
Defined.

Lemma plain_codec_rejects_somehow (p q : option string) (t : @text plain) :
  p ≠ q → ∃ e, @pwdDecrypt plain q (@pwdEncrypt plain p t) = inl e.
Proof. intros Hne. exists AuthenticationFailed. by apply plain_codec_rejects. Qed.

Lemma setPassword_reencrypts_witness :
  (@setPassword plain "new" empty_sources tombstoned).2 = Succeeded
  ∧ password (store (this (@setPassword plain "new" empty_sources
                             tombstoned).1.1)) = Some "new"
  ∧ (@Store_fetch plain (mkOptions (Some "new") None)
       (@setPassword plain "new" empty_sources tombstoned).1.2 initial).2
    = Succeeded
  ∧ contents_of (@Store_fetch plain (mkOptions (Some "new") None)
                   (@setPassword plain "new" empty_sources tombstoned).1.2
                   initial).1.1
    = toJSON <$> contents_of tombstoned
  ∧ ∃ e, (@Store_fetch plain no_options
            (@setPassword plain "new" empty_sources tombstoned).1.2 initial).2
         = Failed e
         ∧ contents_of (@Store_fetch plain no_options
                          (@setPassword plain "new" empty_sources tombstoned).1.2
                          initial).1.1 = [].
Proof.
  apply (@setPassword_reencrypts plain "new" no_options empty_sources
           tombstoned initial).
  - apply plain_codec_round_trip.
  - apply plain_codec_rejects_somehow.
  - apply plain_json_round_trip.
  - split; vm_compute.
    + repeat constructor. by exists "a".
    + repeat constructor. by intros ?%elem_of_nil.
  - repeat constructor. by intros u [= <-].
  - constructor.
  - reflexivity.
  - reflexivity.
  - reflexivity.
  - reflexivity.
  - discriminate.
Defined.

Lemma exists_after_save_witness :
  (@Store_exists plain (Some no_options)
     (@Store_save plain no_options empty_sources stocked).1 initial).2
  = Delivered true
  ∧ @Store_exists plain None
      (@Store_save plain no_options empty_sources stocked).1 initial
    = ((@Store_save plain no_options empty_sources stocked).1, Raised TypeError).
Proof.
  apply (@exists_after_save plain no_options no_options empty_sources
           stocked initial).
  - reflexivity.
  - reflexivity.
  - reflexivity.
  - discriminate.
Defined.

Lemma save_after_lock_stores_nothing_witness :
  (@Store_save plain no_options right_sources (lock stocked)).2 = Succeeded
  ∧ contents (get_source (source_of no_options)
               (@Store_save plain no_options right_sources (lock stocked)).1)
      !! getKey (this stocked)
    = Some (@pwdEncrypt plain None (@JSON_stringify plain [])).
Proof.
  apply (@save_after_lock_stores_nothing plain no_options right_sources stocked).
  constructor.
Defined.

Lemma draft_has_fields : attrs draft !! "fields" = Some (JArr draft_fields).
Proof. reflexivity. Qed.

Lemma draft_fields_no_null : JNull ∉ draft_fields.
Proof.
  intros Hin. unfold draft_fields in Hin.
  repeat (apply elem_of_cons in Hin as [Hin|Hin]; [discriminate|]).
  by apply elem_of_nil in Hin.
Qed.

Lemma normalise_record_witness :
  (normalise 100 draft).2 = Normal
  ∧ (json_truthy (attrs draft !! "name") = true →
     attrs (normalise 100 draft).1 !! "name" = attrs draft !! "name")
  ∧ (json_truthy (attrs draft !! "name") = false →
     attrs (normalise 100 draft).1 !! "name" = Some (JStr "Unnamed"))
  ∧ attrs (normalise 100 draft).1 !! "fields"
    = Some (JArr (List.filter field_filled draft_fields))
  ∧ updated (normalise 100 draft).1 = DateObj 100
  ∧ uuid (normalise 100 draft).1 = uuid draft
  ∧ removed (normalise 100 draft).1 = removed draft
  ∧ (∀ k, k ≠ "name" → k ≠ "fields" →
       attrs (normalise 100 draft).1 !! k = attrs draft !! k).
Proof.
  apply (normalise_record 100 draft draft_fields).
  - apply draft_has_fields.
  - apply draft_fields_no_null.
Defined.

Lemma normalise_twice_witness :
  normalise 200 (normalise 100 draft).1
  = (set_updated (DateObj 200) (normalise 100 draft).1, Normal).
Proof.
  apply (normalise_twice 100 200 draft draft_fields).
  - apply draft_has_fields.
  - apply draft_fields_no_null.
Defined.

Lemma save_record_persists_witness :
  deref (heap (@Collection_save_record plain 0%nat 100 no_options
                 empty_sources drafted).1.1) 0
  = (normalise 100 (deref (heap drafted) 0)).1
  ∧ (∀ l, l ≠ 0%nat →
       deref (heap (@Collection_save_record plain 0%nat 100 no_options
                      empty_sources drafted).1.1) l
       = deref (heap drafted) l)
  ∧ this (@Collection_save_record plain 0%nat 100 no_options
            empty_sources drafted).1.1 = this drafted
  ∧ journal (@Collection_save_record plain 0%nat 100 no_options
               empty_sources drafted).1.2
    = journal empty_sources
      ++ [SaveTo (source_of no_options) (getKey (this drafted))
            (@pwdEncrypt plain (password (store (this drafted)))
               (@JSON_stringify plain
                  (contents_of (@Collection_save_record plain 0%nat 100
                                  no_options empty_sources drafted).1.1)))].
Proof.
  apply (@save_record_persists plain 0%nat 100 no_options empty_sources drafted
           draft_fields).
  - vm_compute. lia.
  - apply draft_has_fields.
  - apply draft_fields_no_null.
Defined.

Lemma save_record_without_fields_witness :
  @Collection_save_record plain 0%nat 100 no_options empty_sources stocked
  = ((@Collection_save_record plain 0%nat 100 no_options empty_sources
        stocked).1.1, empty_sources, Raised TypeError)
  ∧ updated (deref (heap (@Collection_save_record plain 0%nat 100 no_options
                            empty_sources stocked).1.1) 0)
    = updated (deref (heap stocked) 0)
  ∧ attrs (deref (heap (@Collection_save_record plain 0%nat 100 no_options
                          empty_sources stocked).1.1) 0) !! "fields"
    = attrs (deref (heap stocked) 0) !! "fields"
  ∧ (json_truthy (attrs (deref (heap stocked) 0) !! "name") = true →
     attrs (deref (heap (@Collection_save_record plain 0%nat 100 no_options
                           empty_sources stocked).1.1) 0) !! "name"
     = attrs (deref (heap stocked) 0) !! "name")
  ∧ (json_truthy (attrs (deref (heap stocked) 0) !! "name") = false →
     attrs (deref (heap (@Collection_save_record plain 0%nat 100 no_options
                           empty_sources stocked).1.1) 0) !! "name"
     = Some (JStr "Unnamed")).
Proof.
  apply (@save_record_without_fields plain 0%nat 100 no_options empty_sources
           stocked).
  - vm_compute. lia.
  - intros items Hf. vm_compute in Hf. discriminate.
Defined.
